(** * Choropleth pipeline of [chloropleth_map_of_ireland.py]

    A shallow embedding of the county-name normaliser, the two loaders, the
    left merge, the mismatch report, the bin computation and the colour
    function of the interactive map, with the properties the specification
    states about them.

    Conventions of the embedding.
    - A Python [str] is the list of its Unicode code points ([N]).
    - A pandas cell that is missing (NaN) is [None]; a present number is an
      exact rational ([Q]).  Rounding of binary floating point is not part of
      the model.
    - A function that can [raise] returns a [result]. *)

From Stdlib Require Import String Ascii.
From Stdlib Require Import List Bool Arith NArith ZArith QArith Qround Lia.
From Stdlib Require Import Sorted Permutation SetoidList Lqa.
Import ListNotations.

(** ** Python strings *)

Definition str := list N.

(** A string literal of the source, as code points (ASCII literals only). *)
Definition lit (s : string) : str :=
  map N_of_ascii (list_ascii_of_string s).

Definition str_eqb (a b : str) : bool :=
  if list_eq_dec N.eq_dec a b then true else false.

(** [c.isspace()] for a single code point: the Unicode white space of
    CPython's [_PyUnicode_IsWhitespace]. *)
Definition isspace (c : N) : bool :=
  ((9 <=? c) && (c <=? 13) || (28 <=? c) && (c <=? 32) ||
   (c =? 133) || (c =? 160) || (c =? 5760) ||
   (8192 <=? c) && (c <=? 8202) ||
   (c =? 8232) || (c =? 8233) || (c =? 8239) || (c =? 8287) ||
   (c =? 12288))%N.

(** [str.lower] on one code point.  Only the letters A-Z are mapped; see
    [lower_exact] for the code points on which this is all Python does. *)
Definition lower_cp (c : N) : N :=
  if ((65 <=? c) && (c <=? 90))%N then (c + 32)%N else c.

Definition lower (s : str) : str := map lower_cp s.

(** The code points whose Python lower-casing is the one of [lower_cp]
    whatever surrounds them: everything below U+00C0 (ASCII, the C1 controls
    and the Latin-1 signs), the General Punctuation block U+2000..U+206F
    (home of the typographic apostrophe and dash, and of most Unicode
    spaces), U+1680 and U+3000. *)
Definition lower_exact_cp (c : N) : bool :=
  ((c <? 192) || (8192 <=? c) && (c <=? 8303) || (c =? 5760) || (c =? 12288))%N.

Definition lower_exact (s : str) : bool := forallb lower_exact_cp s.

Fixpoint lstrip (s : str) : str :=
  match s with
  | [] => []
  | c :: t => if isspace c then lstrip t else s
  end.

Definition rstrip (s : str) : str := rev (lstrip (rev s)).

(** [s.strip()] *)
Definition strip (s : str) : str := rstrip (lstrip s).

(** [s.startswith(p)] *)
Fixpoint startswith (s p : str) : bool :=
  match p, s with
  | [], _ => true
  | _ :: _, [] => false
  | a :: p', b :: s' => (a =? b)%N && startswith s' p'
  end.

(** [s.replace(old, new)] for a one-character [old] and [new]. *)
Definition replace (old new : N) (s : str) : str :=
  map (fun c => if (c =? old)%N then new else c) s.

(** [d.get(k, default)] on a dict literal, kept as its list of items. *)
Fixpoint dict_find {A : Type} (d : list (str * A)) (k : str) : option A :=
  match d with
  | [] => None
  | (k', v) :: d' => if str_eqb k' k then Some v else dict_find d' k
  end.

Definition dict_get {A : Type} (d : list (str * A)) (k : str) (default : A)
  : A :=
  match dict_find d k with
  | Some v => v
  | None => default
  end.

(** [a < b] and [a <= b] on strings: lexicographic on code points. *)
Fixpoint str_ltb (a b : str) : bool :=
  match a, b with
  | _, [] => false
  | [], _ :: _ => true
  | x :: a', y :: b' =>
      if (x <? y)%N then true else if (y <? x)%N then false else str_ltb a' b'
  end.

Definition str_leb (a b : str) : bool := negb (str_ltb b a).

Definition str_lt (a b : str) : Prop := str_ltb a b = true.
Definition str_le (a b : str) : Prop := str_leb a b = true.

(** [sorted(l)] on strings. *)
Fixpoint insert_str (x : str) (l : list str) : list str :=
  match l with
  | [] => [x]
  | y :: l' => if str_leb x y then x :: l else y :: insert_str x l'
  end.

Definition sorted (l : list str) : list str := fold_right insert_str [] l.

(** [set(l)]: the distinct elements of [l].  Python fixes no iteration order
    for a set; the source only ever sorts it. *)
Definition py_set (l : list str) : list str := nodup (list_eq_dec N.eq_dec) l.

(** ** The name normaliser *)

Definition RIGHT_SINGLE_QUOTE : N := 8217.   (* U+2019 *)
Definition EN_DASH : N := 8211.              (* U+2013 *)
Definition APOSTROPHE : N := 39.
Definition HYPHEN : N := 45.

Definition aliases : list (str * str) :=
  [ (lit "kings county", lit "offaly");
    (lit "queens county", lit "laois") ].

(** [norm_county_name(s)]; the argument is [None] for Python's [None]. *)
Definition norm_county_name (s : option str) : str :=
  match s with
  | None => []
  | Some s =>
      let s0 := strip s in
      let s0 :=
        if startswith (lower s0) (lit "county ") then skipn 7 s0 else s0 in
      let s0 := lower (strip (replace EN_DASH HYPHEN
                                (replace RIGHT_SINGLE_QUOTE APOSTROPHE s0))) in
      dict_get aliases s0 s0
  end.




(** ** Exceptions *)

Inductive exception : Type :=
| ValueError (msg : str)
| KeyError (key : str)
| ZeroDivisionError.

Inductive result (A : Type) : Type :=
| Ok (a : A)
| Raise (e : exception).

Arguments Ok {A} a.
Arguments Raise {A} e.

Definition bind {A B : Type} (m : result A) (k : A -> result B) : result B :=
  match m with
  | Ok a => k a
  | Raise e => Raise e
  end.

Notation "x <- m ;; k" := (bind m (fun x => k))
  (at level 61, m at next level, right associativity).

(** ** Numeric helpers (numpy on exact rationals) *)

Definition isna (v : option Q) : bool :=
  match v with None => true | Some _ => false end.

(** [values.dropna().values] *)
Fixpoint dropna (values : list (option Q)) : list Q :=
  match values with
  | [] => []
  | None :: t => dropna t
  | Some q :: t => q :: dropna t
  end.

Fixpoint insert_Q (x : Q) (l : list Q) : list Q :=
  match l with
  | [] => [x]
  | y :: l' => if Qle_bool x y then x :: l else y :: insert_Q x l'
  end.

Definition np_sort (l : list Q) : list Q := fold_right insert_Q [] l.

(** Drop every element equal to its predecessor. *)
Fixpoint dedup_adjacent (l : list Q) : list Q :=
  match l with
  | [] => []
  | x :: t =>
      match t with
      | [] => [x]
      | y :: _ =>
          if Qeq_bool x y then dedup_adjacent t else x :: dedup_adjacent t
      end
  end.

(** [np.unique(a)]: the sorted distinct elements. *)
Definition np_unique (l : list Q) : list Q := dedup_adjacent (np_sort l).

Definition Q_of_nat (n : nat) : Q := inject_Z (Z.of_nat n).

(** [np.linspace(start, stop, num)] *)
Definition np_linspace (start stop : Q) (num : nat) : list Q :=
  match num with
  | 0%nat => []
  | 1%nat => [start]
  | _ =>
      let step := (stop - start) / Q_of_nat (num - 1) in
      map (fun i => start + Q_of_nat i * step) (seq 0 num)
  end.

(** One quantile of an already sorted, non-empty array, numpy's default
    (linear) method: the virtual index [q * (n - 1)] is split into its floor
    [j] and fraction [g], and the result interpolates between the [j]th
    element and its successor (clipped to the last index). *)
Definition quantile_sorted (sv : list Q) (q : Q) : Q :=
  let n := length sv in
  let idx := q * Q_of_nat (n - 1) in
  let j := Qfloor idx in
  let g := idx - inject_Z j in
  let lo := nth (Z.to_nat j) sv 0 in
  let hi := nth (Nat.min (Z.to_nat j + 1) (n - 1)) sv 0 in
  lo + (hi - lo) * g.

(** [np.quantile(v, qs)] *)
Definition np_quantile (v : list Q) (qs : list Q) : list Q :=
  map (quantile_sorted (np_sort v)) qs.

Definition Qmin2 (a b : Q) : Q := if Qle_bool a b then a else b.
Definition Qmax2 (a b : Q) : Q := if Qle_bool a b then b else a.

(** [np.min(v)] and [np.max(v)]; the source calls them on non-empty arrays
    only. *)
Definition np_min (v : list Q) : Q :=
  match v with
  | [] => 0
  | x :: t => fold_left Qmin2 t x
  end.

Definition np_max (v : list Q) : Q :=
  match v with
  | [] => 0
  | x :: t => fold_left Qmax2 t x
  end.

(** ** Configuration *)

Definition COUNTY_NAME_FIELD : str := lit "NAME_1".
Definition COLOR_MODE : str := lit "quantile".
Definition N_QUANTILES : nat := 5.

(** ** The classifier *)

Definition make_bins (values : list (option Q)) (mode : str) (k : nat)
  : option (list Q) * option str :=
  let v := dropna values in
  if (length v =? 0)%nat then (None, None)
  else
    let linear_path :=
      let vmin := np_min v in
      let vmax := np_max v in
      let bins :=
        if Qeq_bool vmin vmax then [vmin - 1; vmin; vmax + 1]
        else np_linspace vmin vmax (k + 1) in
      (Some bins, Some (lit "Linear")) in
    if str_eqb mode (lit "quantile") then
      let qs := np_linspace 0 1 (k + 1) in
      let bins := np_unique (np_quantile v qs) in
      if (3 <=? length bins)%nat then (Some bins, Some (lit "Quantiles"))
      else linear_path
    else linear_path.

Definition strictly_increasing (l : list Q) : Prop := StronglySorted Qlt l.

(** ** Tables *)

(** A cell of the table [pd.read_csv] returns: its text, or [None] when the
    cell is missing (NaN). *)
Definition cell := option str.

Record DataFrame : Type := {
  columns : list str;
  rows : list (list cell)
}.

(** [str(x)] of a cell handed to [norm_county_name]. *)
Definition str_of_cell (c : cell) : str :=
  match c with
  | Some s => s
  | None => lit "nan"
  end.

(** [{c.lower(): c for c in columns}]: a later column replaces an earlier
    one with the same lower-cased name, so the newest entry is looked up
    first. *)
Definition lower_index (columns : list str) : list (str * str) :=
  fold_left (fun d c => (lower c, c) :: d) columns [].

(** Truth value of the result of [dict.get]: [None] and the empty string are
    false. *)
Definition truthy (o : option str) : bool :=
  match o with
  | Some (_ :: _) => true
  | _ => false
  end.

(** [a or b] *)
Definition py_or (a b : option str) : option str :=
  if truthy a then a else b.

(** Whether some column is called [name], whatever its letter case. *)
Definition has_column (columns : list str) (name : str) : bool :=
  existsb (fun c => str_eqb (lower c) name) columns.

Fixpoint index_of (c : str) (cols : list str) : option nat :=
  match cols with
  | [] => None
  | c' :: t => if str_eqb c' c then Some 0%nat else option_map S (index_of c t)
  end.

(** [df[c]]: the column named [c]; a row too short for it has a missing
    cell there. *)
Definition get_column (df : DataFrame) (c : str) : result (list cell) :=
  match index_of c (columns df) with
  | Some i => Ok (map (fun r => nth i r None) (rows df))
  | None => Raise (KeyError c)
  end.

Fixpoint map_result {A B : Type} (f : A -> result B) (l : list A)
  : result (list B) :=
  match l with
  | [] => Ok []
  | a :: t => b <- f a ;; bs <- map_result f t ;; Ok (b :: bs)
  end.

(** A row of the frame [load_wordcounts] returns. *)
Record WordRow : Type := {
  county : cell;
  value : option Q;
  key : str
}.

Definition NEUTRAL_COLOR : str := lit "#f0f0f0".

Section Pipeline.

(** [pd.to_numeric(..., errors="coerce")] on the text of one cell: the
    number it denotes, or [None] (NaN) when it denotes none. *)
Variable to_numeric : str -> option Q.

(** [mcolors.to_hex(cm.get_cmap("viridis")(t))] *)
Variable viridis_hex : Q -> str.

(** The geometry of a feature. *)
Variable G : Type.

Definition to_numeric_cell (c : cell) : option Q :=
  match c with
  | None => None
  | Some s => to_numeric s
  end.

(** The record built from one row of the frame, given the positions of
    the county column and of the value column. *)
Definition word_row (i j : nat) (r : list cell) : WordRow :=
  {| county := nth i r None;
     value := to_numeric_cell (nth j r None);
     key := norm_county_name (Some (str_of_cell (nth i r None))) |}.

(** The local [county_col] of [load_wordcounts]. *)
Definition county_col (df : DataFrame) : option str :=
  dict_find (lower_index (columns df)) (lit "county").

(** The local [words_col] of [load_wordcounts]. *)
Definition words_col (df : DataFrame) : option str :=
  let cols := lower_index (columns df) in
  py_or (dict_find cols (lit "prosewords")) (dict_find cols (lit "words")).

Definition MISSING_COLUMNS : str :=
  lit "CSV must have 'County' and 'ProseWords' (or 'Words') columns.".

(** [load_wordcounts], from the frame [pd.read_csv] returned. *)
Definition load_wordcounts (df : DataFrame) : result (list WordRow) :=
  match county_col df, words_col df with
  | Some county_col, Some words_col =>
      cs <- get_column df county_col ;;
      ws <- get_column df words_col ;;
      Ok (map (fun cw =>
                 {| county := fst cw;
                    value := to_numeric_cell (snd cw);
                    key := norm_county_name (Some (str_of_cell (fst cw))) |})
              (combine cs ws))
  | _, _ => Raise (ValueError MISSING_COLUMNS)
  end.

(** The frame [gpd.read_file] returns: the names of the property columns,
    and per feature the text of each property and the geometry. *)
Record GeoDataFrame : Type := {
  gcolumns : list str;
  features : list (list str * G)
}.

Record GeoRow : Type := {
  geo_name : str;
  geometry : G;
  gkey : str
}.

(** [load_geo], from the frame [gpd.read_file] returned.  The list of
    columns that ends the message of the source is left out. *)
Definition load_geo (gdf : GeoDataFrame) (county_field : str)
  : result (list GeoRow) :=
  match index_of county_field (gcolumns gdf) with
  | None =>
      Raise (ValueError
        (lit "'" ++ county_field ++ lit "' not found in geodata columns"))
  | Some i =>
      Ok (map (fun f =>
                 let name := nth i (fst f) [] in
                 {| geo_name := name;
                    geometry := snd f;
                    gkey := norm_county_name (Some name) |})
              (features gdf))
  end.

Record MergedRow : Type := {
  m_geo_name : str;
  m_geometry : G;
  m_key : str;
  m_value : option Q
}.

Definition joined (g : GeoRow) (v : option Q) : MergedRow :=
  {| m_geo_name := geo_name g;
     m_geometry := geometry g;
     m_key := gkey g;
     m_value := v |}.

(** The rows of [right] whose key is [k], in their order. *)
Definition matches (right : list (str * option Q)) (k : str)
  : list (str * option Q) :=
  filter (fun r => str_eqb (fst r) k) right.

(** [left.merge(right, on="key", how="left")]: the rows of [left] in their
    order, each paired with every row of [right] that has its key, in the
    order of [right]; a row of [left] without a partner is kept once, with
    a missing value. *)
Definition merge_left (left : list GeoRow) (right : list (str * option Q))
  : list MergedRow :=
  flat_map (fun g =>
              match matches right (gkey g) with
              | [] => [joined g None]
              | ms => map (fun r => joined g (snd r)) ms
              end) left.

(** [merged.loc[merged["value"].isna(), "geo_name"].tolist()] *)
Definition missing_values (merged : list MergedRow) : list str :=
  map m_geo_name (filter (fun m => isna (m_value m)) merged).

(** The names main prints: [sorted(set(missing_values))]. *)
Definition mismatch_report (merged : list MergedRow) : list str :=
  sorted (py_set (missing_values merged)).

(** [(vmin, vmax)] of the interactive map. *)
Definition value_range (vals : list Q) : Q * Q :=
  if (length vals =? 0)%nat then (0, 1) else (np_min vals, np_max vals).

(** [a / b] on Python floats. *)
Definition truediv (a b : Q) : result Q :=
  if Qeq_bool b 0 then Raise ZeroDivisionError else Ok (a / b).

(** The position [t] on the colour ramp that [color_for] computes for a
    present value. *)
Definition ramp_position (vmin vmax v : Q) : result Q :=
  if Qeq_bool vmin vmax then Ok (1 # 2) else truediv (v - vmin) (vmax - vmin).

(** [color_for(v)], a closure over [vmin] and [vmax]; a [None] or NaN
    argument is [None]. *)
Definition color_for (vmin vmax : Q) (v : option Q) : result str :=
  match v with
  | None => Ok NEUTRAL_COLOR
  | Some v => t <- ramp_position vmin vmax v ;; Ok (viridis_hex t)
  end.

(** What a run of [main] computes; drawing and file output are left out. *)
Record Output : Type := {
  out_merged : list MergedRow;
  out_report : option (list str);
  out_bins : option (list Q);
  out_scale_label : option str;
  out_fill : list str
}.

(** [main], from the two frames the readers returned. *)
Definition main (csv : DataFrame) (geo : GeoDataFrame) : result Output :=
  wc <- load_wordcounts csv ;;
  gdf <- load_geo geo COUNTY_NAME_FIELD ;;
  let merged := merge_left gdf (map (fun r => (key r, value r)) wc) in
  let missing := missing_values merged in
  let report :=
    match missing with
    | [] => None
    | _ => Some (mismatch_report merged)
    end in
  let '(bins, scale_label) :=
    make_bins (map m_value merged) COLOR_MODE N_QUANTILES in
  let vals := dropna (map m_value merged) in
  let '(vmin, vmax) := value_range vals in
  fill <- map_result (color_for vmin vmax) (map m_value merged) ;;
  Ok {| out_merged := merged;
        out_report := report;
        out_bins := bins;
        out_scale_label := scale_label;
        out_fill := fill |}.

End Pipeline.

Arguments gcolumns {G}.
Arguments features {G}.
Arguments geo_name {G}.
Arguments geometry {G}.
Arguments gkey {G}.
Arguments load_geo {G}.
Arguments m_geo_name {G}.
Arguments m_geometry {G}.
Arguments m_key {G}.
Arguments m_value {G}.
Arguments joined {G}.
Arguments merge_left {G}.
Arguments missing_values {G}.
Arguments mismatch_report {G}.
Arguments out_merged {G}.
Arguments out_report {G}.
Arguments out_bins {G}.
Arguments out_scale_label {G}.
Arguments out_fill {G}.

(** The names a run prints as lacking a value; none when it prints no
    report. *)
Definition printed_names {G : Type} (o : Output G) : list str :=
  match out_report o with
  | Some names => names
  | None => []
  end.

(** ** The word-count producer ([wikipedia_word_count.py]) *)

(** A decoded JSON value, as [r.json()] returns it.  The items of an
    object are kept as a list; a decoded object has every key once. *)
#[warnings="-register-all"]
Inductive json : Type :=
| JNull
| JBool (b : bool)
| JInt (z : Z)
| JFloat (q : Q)
| JStr (s : str)
| JList (l : list json)
| JDict (d : list (str * json)).

(** [isinstance(x, int)]: Python's [bool] is a subclass of [int]. *)
Definition is_int (x : json) : bool :=
  match x with
  | JInt _ | JBool _ => true
  | _ => false
  end.

(** The number an [int] stands for in a sum; [True] is 1. *)
Definition int_value (x : json) : Z :=
  match x with
  | JInt z => z
  | JBool true => 1
  | _ => 0
  end.

(** [d[k]] when [k in d and isinstance(d[k], int)] (for a section:
    [isinstance(sec.get(k), int)]). *)
Definition int_at (d : list (str * json)) (k : str) : option json :=
  match dict_find d k with
  | Some w => if is_int w then Some w else None
  | None => None
  end.

(** One turn of the loop over [section_statistics], on the pair
    [(total, found_any)]. *)
Definition add_section (state : Z * bool) (sec : json) : Z * bool :=
  match sec with
  | JDict sd =>
      match int_at sd (lit "words") with
      | Some w => (fst state + int_value w, true)%Z
      | None => state
      end
  | _ => state
  end.

(** [extract_prose_words(payload)] *)
Definition extract_prose_words (payload : json) : option json :=
  match payload with
  | JDict d =>
      match int_at d (lit "words") with
      | Some w => Some w
      | None =>
          let nested :=
            match dict_find d (lit "prose") with
            | Some (JDict prose) => int_at prose (lit "words")
            | _ => None
            end in
          match nested with
          | Some w => Some w
          | None =>
              match dict_find d (lit "section_statistics") with
              | Some (JList secs) =>
                  let '(total, found_any) :=
                    fold_left add_section secs (0%Z, false) in
                  if found_any then Some (JInt total) else None
              | _ => None
              end
          end
      end
  | _ => None
  end.

(** The word counts the loop adds up: those of the sections that are
    objects with an [int] under "words", in their order. *)
Definition section_words (secs : list json) : list Z :=
  flat_map (fun sec =>
              match sec with
              | JDict sd =>
                  match int_at sd (lit "words") with
                  | Some w => [int_value w]
                  | None => []
                  end
              | _ => []
              end) secs.

(** ** Sample data *)

(** One geometry row, as [load_geo] builds it from a feature named
    [name]; the geometry itself plays no part. *)
Definition geo_row (name : string) : GeoRow unit :=
  {| geo_name := lit name;
     geometry := tt;
     gkey := norm_county_name (Some (lit name)) |}.

(** A stand-in for [pd.to_numeric] on the sample tables: it reads unsigned
    decimal integers and nothing else. *)
Definition digits_to_numeric (s : str) : option Q :=
  match s with
  | [] => None
  | _ =>
      if forallb (fun c => (48 <=? c) && (c <=? 57))%N s
      then Some (inject_Z (Z.of_N
                   (fold_left (fun acc c => acc * 10 + (c - 48))%N s 0%N)))
      else None
  end.

(** A stand-in for the colour ramp on the sample tables. *)
Definition grey_ramp (t : Q) : str := lit "#808080".

(** The table of the reference producer, with a cell that is no number. *)
Definition sample_csv : DataFrame :=
  {| columns := [lit "County"; lit "ProseWords"; lit "PageTitle"; lit "Error"];
     rows :=
       [ [Some (lit "County Offaly"); Some (lit "500");
          Some (lit "County Offaly"); None];
         [Some (lit "County Cork"); Some (lit "n/a");
          Some (lit "County Cork"); None];
         [Some (lit "County Antrim"); Some (lit "700");
          Some (lit "County Antrim"); None] ] |}.

(** A table without a value column. *)
Definition no_words_csv : DataFrame :=
  {| columns := [lit "County"; lit "PageTitle"];
     rows := [ [Some (lit "County Offaly"); Some (lit "County Offaly")] ] |}.

(** A table whose only value cell is no number. *)
Definition no_values_csv : DataFrame :=
  {| columns := [lit "County"; lit "Words"];
     rows := [ [Some (lit "County Offaly"); Some (lit "n/a")] ] |}.

(** A table with both value columns, "Words" first. *)
Definition both_csv : DataFrame :=
  {| columns := [lit "County"; lit "Words"; lit "ProseWords"];
     rows := [ [Some (lit "County Offaly"); Some (lit "900");
                Some (lit "500")] ] |}.

(** Geometry in an order that is not alphabetical. *)
Definition sample_geo : GeoDataFrame unit :=
  {| gcolumns := [lit "GID_1"; lit "NAME_1"];
     features :=
       [ ([lit "IRL.26_1"; lit "Wicklow"], tt);
         ([lit "IRL.20_1"; lit "Offaly"], tt);
         ([lit "IRL.4_1"; lit "Cork"], tt);
         ([lit "IRL.1_1"; lit "Carlow"], tt) ] |}.


(** Sections of which one is no object and one has no count. *)
Definition sample_sections : list json :=
  [ JDict [ (lit "words", JInt 120) ];
    JStr (lit "n/a");
    JDict [ (lit "title", JStr (lit "History")) ];
    JDict [ (lit "words", JInt 0) ] ].

(** The items of a payload with no usable top-level or nested count. *)
Definition sections_items : list (str * json) :=
  [ (lit "words", JStr (lit "many"));
    (lit "section_statistics", JList sample_sections) ].

(** Two rows of the value side with the same key and different values. *)
Definition offaly_twice : list (str * option Q) :=
  [ (lit "offaly", Some 300); (lit "offaly", Some 500) ].

(** * Properties *)

(** ** Strings *)

Lemma str_eqb_eq (a b : str) : str_eqb a b = true <-> a = b.
Proof.
  unfold str_eqb. destruct (list_eq_dec N.eq_dec a b); split; congruence.
Qed.

Lemma str_eqb_refl (a : str) : str_eqb a a = true.
Proof. now apply str_eqb_eq. Qed.


Lemma lower_cp_cases (c : N) :
  (lower_cp c = c /\ ((c < 65)%N \/ (90 < c)%N)) \/
  (lower_cp c = (c + 32)%N /\ (65 <= c <= 90)%N).
Proof.
  unfold lower_cp.
  destruct (N.leb_spec 65 c); destruct (N.leb_spec c 90); simpl; lia.
Qed.

Lemma lower_cp_idem (c : N) : lower_cp (lower_cp c) = lower_cp c.
Proof.
  destruct (lower_cp_cases c) as [[E _] | [E H]]; rewrite E; [exact E |].
  destruct (lower_cp_cases (c + 32)) as [[E' _] | [_ H']]; [exact E' | lia].
Qed.

Lemma lower_idem (s : str) : lower (lower s) = lower s.
Proof.
  unfold lower. rewrite map_map. apply map_ext, lower_cp_idem.
Qed.

Lemma isspace_letter (c : N) : (65 <= c <= 122)%N -> isspace c = false.
Proof.
  intros H. unfold isspace.
  assert (E1 : (c <=? 13)%N = false) by (apply N.leb_gt; lia).
  assert (E2 : (c <=? 32)%N = false) by (apply N.leb_gt; lia).
  assert (E3 : (c =? 133)%N = false) by (apply N.eqb_neq; lia).
  assert (E4 : (c =? 160)%N = false) by (apply N.eqb_neq; lia).
  assert (E5 : (c =? 5760)%N = false) by (apply N.eqb_neq; lia).
  assert (E6 : (8192 <=? c)%N = false) by (apply N.leb_gt; lia).
  assert (E7 : (c =? 8232)%N = false) by (apply N.eqb_neq; lia).
  assert (E8 : (c =? 8233)%N = false) by (apply N.eqb_neq; lia).
  assert (E9 : (c =? 8239)%N = false) by (apply N.eqb_neq; lia).
  assert (E10 : (c =? 8287)%N = false) by (apply N.eqb_neq; lia).
  assert (E11 : (c =? 12288)%N = false) by (apply N.eqb_neq; lia).
  rewrite E1, E2, E3, E4, E5, E6, E7, E8, E9, E10, E11.
  now rewrite !andb_false_r.
Qed.

Lemma isspace_lower_cp (c : N) : isspace (lower_cp c) = isspace c.
Proof.
  destruct (lower_cp_cases c) as [[E _] | [E H]]; rewrite E; [reflexivity |].
  rewrite !isspace_letter; [reflexivity | lia | lia].
Qed.

Lemma lstrip_lower (s : str) : lstrip (lower s) = lower (lstrip s).
Proof.
  induction s as [| c t IH]; simpl; [reflexivity |].
  rewrite isspace_lower_cp. destruct (isspace c); [exact IH | reflexivity].
Qed.

Lemma rstrip_lower (s : str) : rstrip (lower s) = lower (rstrip s).
Proof.
  unfold rstrip, lower. rewrite <- map_rev.
  change (map lower_cp (rev s)) with (lower (rev s)).
  rewrite lstrip_lower. unfold lower. now rewrite map_rev.
Qed.

Lemma strip_lower (s : str) : strip (lower s) = lower (strip s).
Proof.
  unfold strip. now rewrite lstrip_lower, rstrip_lower.
Qed.

Lemma lstrip_shape (s : str) :
  lstrip s = [] \/ exists c t, lstrip s = c :: t /\ isspace c = false.
Proof.
  induction s as [| c t IH]; simpl; [now left |].
  destruct (isspace c) eqn:E; [exact IH |].
  right. now exists c, t.
Qed.

Lemma lstrip_snoc (l : str) (c : N) :
  isspace c = false -> lstrip (l ++ [c]) = lstrip l ++ [c].
Proof.
  intros Hc. induction l as [| x l IH]; simpl.
  - now rewrite Hc.
  - destruct (isspace x); [exact IH | reflexivity].
Qed.

Lemma rstrip_cons (c : N) (t : str) :
  isspace c = false -> rstrip (c :: t) = c :: rstrip t.
Proof.
  intros Hc. unfold rstrip. simpl.
  rewrite lstrip_snoc by exact Hc.
  now rewrite rev_app_distr.
Qed.

Lemma lstrip_idem (s : str) : lstrip (lstrip s) = lstrip s.
Proof.
  destruct (lstrip_shape s) as [E | (c & t & E & Hc)]; rewrite E; simpl;
    [reflexivity | now rewrite Hc].
Qed.

Lemma rstrip_idem (s : str) : rstrip (rstrip s) = rstrip s.
Proof.
  unfold rstrip. now rewrite rev_involutive, lstrip_idem.
Qed.

Lemma strip_idem (s : str) : strip (strip s) = strip s.
Proof.
  unfold strip.
  destruct (lstrip_shape s) as [E | (c & t & E & Hc)]; rewrite E.
  - reflexivity.
  - rewrite (rstrip_cons c t Hc). simpl. rewrite Hc.
    rewrite (rstrip_cons c (rstrip t) Hc). now rewrite rstrip_idem.
Qed.






(** ** The name normaliser *)
















(** ** The join *)

Section MergeFacts.

Variable G : Type.

Implicit Types (left : list (GeoRow G)) (right : list (str * option Q)).

Lemma merge_left_app left1 left2 right :
  merge_left (left1 ++ left2) right =
    merge_left left1 right ++ merge_left left2 right.
Proof. unfold merge_left. apply flat_map_app. Qed.

Lemma merge_left_cons (g : GeoRow G) left right :
  merge_left (g :: left) right = merge_left [g] right ++ merge_left left right.
Proof. apply (merge_left_app [g] left right). Qed.

(** The rows one geometry contributes: never none. *)
Lemma merge_left_one_length (g : GeoRow G) right :
  length (merge_left [g] right) =
    Nat.max 1 (length (matches right (gkey g))).
Proof.
  unfold merge_left. simpl. rewrite app_nil_r.
  destruct (matches right (gkey g)) as [| r ms]; [reflexivity |].
  simpl. rewrite length_map. lia.
Qed.

Lemma matches_absent right (k : str) :
  ~ In k (map fst right) -> matches right k = [].
Proof.
  unfold matches. induction right as [| r right IH]; simpl; [reflexivity |].
  intros H. destruct (str_eqb (fst r) k) eqn:E.
  - apply str_eqb_eq in E. tauto.
  - apply IH. tauto.
Qed.

Lemma matches_unique right (k : str) :
  NoDup (map fst right) -> (length (matches right k) <= 1)%nat.
Proof.
  unfold matches. induction right as [| r right IH]; simpl; [lia |].
  intros H. apply NoDup_cons_iff in H. destruct H as [Hr H].
  destruct (str_eqb (fst r) k) eqn:E; [| now apply IH].
  apply str_eqb_eq in E. subst k. simpl.
  pose proof (matches_absent right (fst r) Hr) as Hm.
  unfold matches in Hm. now rewrite Hm.
Qed.

(** Where a row of the join comes from. *)
Lemma merge_left_In left right (m : MergedRow G) :
  In m (merge_left left right) <->
  exists g, In g left /\
    ((exists r, In r right /\ fst r = gkey g /\ m = joined g (snd r)) \/
     ((forall r, In r right -> fst r <> gkey g) /\ m = joined g None)).
Proof.
  unfold merge_left. rewrite in_flat_map. split.
  - intros (g & Hg & Hm). exists g. split; [exact Hg |].
    destruct (matches right (gkey g)) as [| r0 ms] eqn:E.
    + right. destruct Hm as [<- | []]. split; [| reflexivity].
      intros r Hr Hk.
      assert (Hin : In r (matches right (gkey g))).
      { apply filter_In. split; [exact Hr | now apply str_eqb_eq]. }
      now rewrite E in Hin.
    + left. rewrite <- E in Hm. apply in_map_iff in Hm.
      destruct Hm as (r & <- & Hr). apply filter_In in Hr.
      destruct Hr as [Hr Hk]. apply str_eqb_eq in Hk. now exists r.
  - intros (g & Hg & [(r & Hr & Hk & ->) | (Hnone & ->)]); exists g;
      (split; [exact Hg |]).
    + assert (Hin : In r (matches right (gkey g))).
      { apply filter_In. split; [exact Hr | now apply str_eqb_eq]. }
      destruct (matches right (gkey g)) as [| r0 ms] eqn:E; [destruct Hin |].
      rewrite <- E. apply in_map_iff. exists r. rewrite E. now split.
    + destruct (matches right (gkey g)) as [| r0 ms] eqn:E; [now left |].
      exfalso. assert (Hin : In r0 (matches right (gkey g)))
        by (rewrite E; now left).
      apply filter_In in Hin. destruct Hin as [Hr Hk].
      apply str_eqb_eq in Hk. exact (Hnone r0 Hr Hk).
Qed.

Lemma merge_left_length_ge left right :
  (length left <= length (merge_left left right))%nat.
Proof.
  induction left as [| g left IH]; [simpl; lia |].
  rewrite merge_left_cons, length_app, merge_left_one_length.
  cbn [length]. lia.
Qed.

Lemma merge_left_length_unique left right :
  NoDup (map fst right) -> length (merge_left left right) = length left.
Proof.
  intros H. induction left as [| g left IH]; [reflexivity |].
  rewrite merge_left_cons, length_app, merge_left_one_length, IH.
  pose proof (matches_unique right (gkey g) H). cbn [length]. lia.
Qed.

End MergeFacts.

(** C1, as the specification states it, fails: two value rows with the key
    of one geometry row give two joined rows. *)
Lemma merge_left_duplicate_key_length :
  length (merge_left [geo_row "Offaly"] offaly_twice) = 2%nat /\
  length (merge_left [geo_row "Offaly"] offaly_twice)
    <> length [geo_row "Offaly"].
Proof. split; [reflexivity | discriminate]. Qed.

(** C1 (amended): the join produces, for each geometry row, one joined row
    per value row with its key, and exactly one when there is none; so the
    joined sequence is never shorter than the geometry sequence, and has its
    length whenever no two value rows share a key. *)
Theorem merge_left_length (G : Type) (left : list (GeoRow G))
    (right : list (str * option Q)) :
  length (merge_left left right) =
    list_sum (map (fun g => Nat.max 1 (length (matches right (gkey g)))) left)
  /\ (length left <= length (merge_left left right))%nat
  /\ (NoDup (map fst right) -> length (merge_left left right) = length left).
Proof.
  split; [| split].
  - induction left as [| g left IH]; [reflexivity |].
    rewrite merge_left_cons, length_app, merge_left_one_length, IH.
    reflexivity.
  - apply merge_left_length_ge.
  - apply merge_left_length_unique.
Qed.

Lemma merge_left_length_witness :
  NoDup (map fst [ (lit "offaly", Some 300); (lit "cork", @None Q) ]) /\
  length (merge_left [geo_row "Offaly"; geo_row "Longford"]
            [ (lit "offaly", Some 300); (lit "cork", None) ]) = 2%nat.
Proof.
  assert (H : NoDup (map fst [ (lit "offaly", Some 300);
                               (lit "cork", @None Q) ])).
  { repeat constructor; simpl; intuition discriminate. }
  split; [exact H |].
  exact (proj2 (proj2 (merge_left_length unit
           [geo_row "Offaly"; geo_row "Longford"]
           [ (lit "offaly", Some 300); (lit "cork", None) ])) H).
Defined.

(** C2, as the specification states it, fails: of two value rows with the
    same key the earlier is not overwritten; both reach the output. *)
Lemma merge_left_duplicate_key_values :
  map m_value (merge_left [geo_row "Offaly"] offaly_twice)
    = [Some 300; Some 500] /\
  map m_value (merge_left [geo_row "Offaly"] offaly_twice) <> [Some 500].
Proof. split; [reflexivity | discriminate]. Qed.

(** C2 (amended): when two value rows have the key of a geometry row, the
    join keeps both: each of them gives that geometry a joined row of its
    own with its own value, the earlier row first, and neither value
    replaces the other. *)
Theorem merge_left_keeps_both (G : Type) (l1 l2 : list (GeoRow G))
    (g : GeoRow G) (r1 r2 r3 : list (str * option Q)) (v1 v2 : option Q) :
  let right := r1 ++ (gkey g, v1) :: r2 ++ (gkey g, v2) :: r3 in
  let rows r := map (fun x => joined g (snd x)) (matches r (gkey g)) in
  merge_left (l1 ++ g :: l2) right =
    merge_left l1 right
    ++ (rows r1 ++ joined g v1 :: rows r2 ++ joined g v2 :: rows r3)
    ++ merge_left l2 right.
Proof.
  intros right rows.
  rewrite merge_left_app, merge_left_cons.
  apply f_equal. apply (f_equal (fun l => l ++ merge_left l2 right)).
  unfold merge_left at 1. simpl. rewrite app_nil_r.
  assert (E : matches right (gkey g) =
              matches r1 (gkey g) ++ (gkey g, v1) ::
              matches r2 (gkey g) ++ (gkey g, v2) :: matches r3 (gkey g)).
  { unfold right, matches. rewrite filter_app. simpl. rewrite str_eqb_refl.
    rewrite filter_app. simpl. now rewrite str_eqb_refl. }
  destruct (matches right (gkey g)) as [| x xs].
  - exfalso. exact (app_cons_not_nil _ _ _ E).
  - change (joined g (snd x) :: map (fun r => joined g (snd r)) xs)
      with (map (fun r : str * option Q => joined g (snd r)) (x :: xs)).
    rewrite E. unfold rows. rewrite map_app. simpl. rewrite map_app.
    reflexivity.
Qed.

(** ** The order of strings and [sorted] *)

Lemma str_ltb_irrefl (a : str) : str_ltb a a = false.
Proof.
  induction a as [| x a IH]; simpl; [reflexivity |].
  now rewrite N.ltb_irrefl.
Qed.

Lemma str_ltb_trichotomy (a b : str) :
  str_ltb a b = false -> str_ltb b a = false -> a = b.
Proof.
  revert b. induction a as [| x a IH]; intros [| y b]; simpl;
    try discriminate; [reflexivity |].
  destruct (N.ltb_spec x y); [discriminate |].
  destruct (N.ltb_spec y x); [discriminate |].
  intros H1 H2. assert (x = y) by lia. subst. f_equal. now apply IH.
Qed.

Lemma str_ltb_asym (a b : str) : str_ltb a b = true -> str_ltb b a = false.
Proof.
  revert b. induction a as [| x a IH]; intros [| y b]; simpl;
    try discriminate; [reflexivity |].
  destruct (N.ltb_spec x y); destruct (N.ltb_spec y x);
    try reflexivity; try discriminate; try lia.
  apply IH.
Qed.

Lemma str_ltb_trans (a b c : str) :
  str_ltb a b = true -> str_ltb b c = true -> str_ltb a c = true.
Proof.
  revert b c. induction a as [| x a IH]; intros [| y b] [| z c]; simpl;
    try discriminate; try reflexivity.
  destruct (N.ltb_spec x y); destruct (N.ltb_spec y x);
    destruct (N.ltb_spec y z); destruct (N.ltb_spec z y);
    destruct (N.ltb_spec x z); destruct (N.ltb_spec z x);
    try reflexivity; try discriminate; try lia.
  apply IH.
Qed.

Lemma str_le_total (a b : str) : str_leb a b = false -> str_le b a.
Proof.
  unfold str_le, str_leb. intros H. apply negb_false_iff in H.
  apply str_ltb_asym in H. now rewrite H.
Qed.

Lemma insert_str_In (x y : str) (l : list str) :
  In y (insert_str x l) <-> y = x \/ In y l.
Proof.
  induction l as [| z l IH]; simpl; [intuition |].
  destruct (str_leb x z); simpl; [intuition | rewrite IH; intuition].
Qed.

Lemma sorted_In (y : str) (l : list str) : In y (sorted l) <-> In y l.
Proof.
  induction l as [| x l IH]; simpl; [tauto |].
  rewrite insert_str_In, IH. intuition.
Qed.

Lemma insert_str_perm (x : str) (l : list str) :
  Permutation (insert_str x l) (x :: l).
Proof.
  induction l as [| z l IH]; simpl; [reflexivity |].
  destruct (str_leb x z); [reflexivity |].
  rewrite IH. apply perm_swap.
Qed.

Lemma sorted_perm (l : list str) : Permutation (sorted l) l.
Proof.
  induction l as [| x l IH]; simpl; [reflexivity |].
  rewrite insert_str_perm. now constructor.
Qed.

Lemma insert_str_Sorted (x : str) (l : list str) :
  Sorted str_le l -> Sorted str_le (insert_str x l).
Proof.
  induction 1 as [| z l Hl IH Hz]; simpl; [repeat constructor |].
  destruct (str_leb x z) eqn:E.
  - constructor; [now constructor | now constructor].
  - constructor; [exact IH |].
    apply str_le_total in E.
    destruct l as [| w l]; simpl; [now constructor |].
    destruct (str_leb x w); constructor; [exact E |].
    now inversion Hz.
Qed.

Lemma sorted_Sorted (l : list str) : Sorted str_le (sorted l).
Proof.
  induction l as [| x l IH]; simpl; [constructor |].
  now apply insert_str_Sorted.
Qed.

Lemma Sorted_le_NoDup_lt (l : list str) :
  Sorted str_le l -> NoDup l -> StronglySorted str_lt l.
Proof.
  intros Hs Hn. apply Sorted_StronglySorted.
  { intros a b c. apply str_ltb_trans. }
  induction Hs as [| x l Hl IH Hx]; [constructor |].
  apply NoDup_cons_iff in Hn. destruct Hn as [Hx' Hn].
  constructor; [now apply IH |].
  destruct Hx as [| y l Hxy]; constructor.
  unfold str_le, str_leb in Hxy. apply negb_true_iff in Hxy.
  unfold str_lt. destruct (str_ltb x y) eqn:E; [reflexivity |].
  exfalso. apply Hx'. left. symmetry. now apply str_ltb_trichotomy.
Qed.

(** [sorted(set(l))] holds the elements of [l], each once, in strictly
    ascending order. *)
Lemma sorted_set_spec (l : list str) :
  (forall x, In x (sorted (py_set l)) <-> In x l) /\
  StronglySorted str_lt (sorted (py_set l)).
Proof.
  split.
  - intros x. rewrite sorted_In. unfold py_set. apply nodup_In.
  - apply Sorted_le_NoDup_lt; [apply sorted_Sorted |].
    apply (Permutation_NoDup (l := py_set l)).
    + symmetry. apply sorted_perm.
    + apply NoDup_nodup.
Qed.

(** ** Column lookup *)

Lemma lower_index_map (cols : list str) :
  lower_index cols = map (fun c => (lower c, c)) (rev cols).
Proof.
  unfold lower_index.
  enough (H : forall acc,
             fold_left (fun d c => (lower c, c) :: d) cols acc =
               map (fun c => (lower c, c)) (rev cols) ++ acc)
    by (rewrite H; apply app_nil_r).
  induction cols as [| c l IH]; intros acc; simpl; [reflexivity |].
  rewrite IH, map_app, <- app_assoc. reflexivity.
Qed.

Lemma lower_index_find (cols : list str) (name : str) :
  dict_find (lower_index cols) name =
    find (fun c => str_eqb (lower c) name) (rev cols).
Proof.
  rewrite lower_index_map.
  induction (rev cols) as [| c l IH]; simpl; [reflexivity |].
  destruct (str_eqb (lower c) name); [reflexivity | exact IH].
Qed.

Lemma lower_index_Some (cols : list str) (name c : str) :
  dict_find (lower_index cols) name = Some c -> In c cols /\ lower c = name.
Proof.
  rewrite lower_index_find. intros H. apply find_some in H.
  destruct H as [Hin He]. apply in_rev in Hin. apply str_eqb_eq in He.
  now split.
Qed.

Lemma lower_index_None (cols : list str) (name : str) :
  dict_find (lower_index cols) name = None <-> has_column cols name = false.
Proof.
  rewrite lower_index_find. unfold has_column. split.
  - intros H. apply not_true_is_false. intros He.
    apply existsb_exists in He. destruct He as (c & Hin & He).
    apply in_rev in Hin.
    pose proof (find_none _ _ H c Hin) as Hc. simpl in Hc. congruence.
  - intros H. destruct (find _ (rev cols)) as [c |] eqn:E; [| reflexivity].
    apply find_some in E. destruct E as [Hin He]. apply in_rev in Hin.
    assert (Ht : existsb (fun c => str_eqb (lower c) name) cols = true)
      by (apply existsb_exists; now exists c).
    congruence.
Qed.

Lemma lower_index_has (cols : list str) (name : str) :
  has_column cols name = true ->
  exists c, dict_find (lower_index cols) name = Some c.
Proof.
  intros H. destruct (dict_find (lower_index cols) name) as [c |] eqn:E;
    [now exists c |].
  apply lower_index_None in E. congruence.
Qed.

Lemma index_of_In (c : str) (cols : list str) :
  In c cols -> exists i, index_of c cols = Some i /\ nth_error cols i = Some c.
Proof.
  induction cols as [| c' t IH]; simpl; [tauto |].
  intros H. destruct (str_eqb c' c) eqn:E.
  - apply str_eqb_eq in E. subst. now exists 0%nat.
  - destruct H as [-> | H]; [now rewrite str_eqb_refl in E |].
    destruct (IH H) as (i & Hi & Hn). exists (S i). rewrite Hi. now split.
Qed.

Lemma lower_nonempty (c : str) (name : string) :
  lower c = lit name -> name <> EmptyString -> truthy (Some c) = true.
Proof.
  destruct c as [| x c]; [| reflexivity].
  destruct name; [congruence | discriminate].
Qed.

(** ** The value loader *)

Section LoaderFacts.

Variable to_numeric : str -> option Q.

Lemma county_col_has (df : DataFrame) :
  has_column (columns df) (lit "county") = true ->
  exists c, county_col df = Some c /\ In c (columns df) /\
            lower c = lit "county".
Proof.
  intros H. destruct (lower_index_has _ _ H) as (c & Hc).
  exists c. split; [exact Hc |]. now apply lower_index_Some.
Qed.

Lemma county_col_none (df : DataFrame) :
  has_column (columns df) (lit "county") = false -> county_col df = None.
Proof. apply lower_index_None. Qed.

Lemma words_col_prose (df : DataFrame) :
  has_column (columns df) (lit "prosewords") = true ->
  exists c, words_col df = Some c /\ In c (columns df) /\
            lower c = lit "prosewords".
Proof.
  intros H. destruct (lower_index_has _ _ H) as (c & Hc).
  destruct (lower_index_Some _ _ _ Hc) as [Hin Hl].
  exists c. unfold words_col, py_or. rewrite Hc.
  rewrite (lower_nonempty c "prosewords" Hl) by discriminate.
  now repeat split.
Qed.

Lemma words_col_words (df : DataFrame) :
  has_column (columns df) (lit "prosewords") = false ->
  has_column (columns df) (lit "words") = true ->
  exists c, words_col df = Some c /\ In c (columns df) /\
            lower c = lit "words".
Proof.
  intros Hp H. apply lower_index_None in Hp.
  destruct (lower_index_has _ _ H) as (c & Hc).
  destruct (lower_index_Some _ _ _ Hc) as [Hin Hl].
  exists c. unfold words_col, py_or. rewrite Hp. simpl.
  now repeat split.
Qed.

Lemma words_col_none (df : DataFrame) :
  has_column (columns df) (lit "prosewords") = false ->
  has_column (columns df) (lit "words") = false ->
  words_col df = None.
Proof.
  intros Hp Hw. apply lower_index_None in Hp, Hw.
  unfold words_col, py_or. now rewrite Hp, Hw.
Qed.

Lemma combine_map_rows (A B C : Type) (f : A -> B) (g : A -> C)
    (l : list A) :
  combine (map f l) (map g l) = map (fun a => (f a, g a)) l.
Proof. induction l; simpl; [reflexivity | now f_equal]. Qed.

(** With both columns chosen, the load succeeds and reads every row at
    the positions of the two columns. *)
Lemma load_wordcounts_selected (df : DataFrame) (cc wc : str) :
  county_col df = Some cc -> In cc (columns df) ->
  words_col df = Some wc -> In wc (columns df) ->
  exists i j,
    nth_error (columns df) i = Some cc /\
    nth_error (columns df) j = Some wc /\
    load_wordcounts to_numeric df =
      Ok (map (word_row to_numeric i j) (rows df)).
Proof.
  intros Hc Hcin Hw Hwin.
  destruct (index_of_In cc _ Hcin) as (i & Hi & Hni).
  destruct (index_of_In wc _ Hwin) as (j & Hj & Hnj).
  exists i, j. repeat split; try assumption.
  unfold load_wordcounts. rewrite Hc, Hw.
  unfold get_column. rewrite Hi, Hj. simpl.
  rewrite combine_map_rows, map_map. reflexivity.
Qed.

Lemma load_wordcounts_raises (df : DataFrame) :
  has_column (columns df) (lit "county") = false \/
  (has_column (columns df) (lit "prosewords") = false /\
   has_column (columns df) (lit "words") = false) ->
  load_wordcounts to_numeric df = Raise (ValueError MISSING_COLUMNS).
Proof.
  unfold load_wordcounts. intros [H | [Hp Hw]].
  - rewrite (county_col_none df H). reflexivity.
  - rewrite (words_col_none df Hp Hw). now destruct (county_col df).
Qed.

End LoaderFacts.

(** ** The colour function and the run as a whole *)

Lemma ramp_position_ok (vmin vmax v : Q) :
  exists t, ramp_position vmin vmax v = Ok t.
Proof.
  unfold ramp_position, truediv.
  destruct (Qeq_bool vmin vmax) eqn:E; [now exists (1 # 2) |].
  destruct (Qeq_bool (vmax - vmin) 0) eqn:E0; [| eauto].
  exfalso. apply Qeq_bool_iff in E0.
  assert (H : vmin == vmax) by (rewrite <- (Qplus_0_l vmin), <- E0; ring).
  apply Qeq_bool_iff in H. congruence.
Qed.

Lemma color_for_ok (viridis_hex : Q -> str) (vmin vmax : Q) (v : option Q) :
  exists c, color_for viridis_hex vmin vmax v = Ok c.
Proof.
  destruct v as [v |]; simpl; [| eauto].
  destruct (ramp_position_ok vmin vmax v) as (t & ->). simpl. eauto.
Qed.

Lemma map_result_ok (A B : Type) (f : A -> result B) (l : list A) :
  (forall a, exists b, f a = Ok b) ->
  exists bs, map_result f l = Ok bs /\ length bs = length l.
Proof.
  intros Hf. induction l as [| a l (bs & E & Hl)]; simpl; [now exists [] |].
  destruct (Hf a) as (b & ->). simpl. rewrite E. simpl.
  exists (b :: bs). simpl. now rewrite Hl.
Qed.

Lemma np_min_all (x : Q) (v : list Q) :
  v <> [] -> Forall (fun y => y == x) v -> np_min v == x.
Proof.
  destruct v as [| a v]; [congruence |]. intros _ H.
  inversion_clear H as [| ? ? Ha Hv]. simpl.
  revert a Ha. induction Hv as [| b v Hb _ IH]; intros a Ha; simpl;
    [exact Ha |].
  apply IH. unfold Qmin2. now destruct (Qle_bool a b).
Qed.

Lemma np_max_all (x : Q) (v : list Q) :
  v <> [] -> Forall (fun y => y == x) v -> np_max v == x.
Proof.
  destruct v as [| a v]; [congruence |]. intros _ H.
  inversion_clear H as [| ? ? Ha Hv]. simpl.
  revert a Ha. induction Hv as [| b v Hb _ IH]; intros a Ha; simpl;
    [exact Ha |].
  apply IH. unfold Qmax2. now destruct (Qle_bool a b).
Qed.

Section RunFacts.

Variable to_numeric : str -> option Q.
Variable viridis_hex : Q -> str.
Variable G : Type.

(** Once both loaders have returned, nothing in [main] raises. *)
Lemma main_ok (csv : DataFrame) (geo : GeoDataFrame G)
    (wc : list WordRow) (gdf : list (GeoRow G)) :
  load_wordcounts to_numeric csv = Ok wc ->
  load_geo geo COUNTY_NAME_FIELD = Ok gdf ->
  let merged := merge_left gdf (map (fun r => (key r, value r)) wc) in
  exists fill,
    main to_numeric viridis_hex G csv geo =
      Ok {| out_merged := merged;
            out_report :=
              match missing_values merged with
              | [] => None
              | _ => Some (mismatch_report merged)
              end;
            out_bins :=
              fst (make_bins (map m_value merged) COLOR_MODE N_QUANTILES);
            out_scale_label :=
              snd (make_bins (map m_value merged) COLOR_MODE N_QUANTILES);
            out_fill := fill |}
    /\ length fill = length merged.
Proof.
  intros Hwc Hgdf merged. unfold main. rewrite Hwc, Hgdf. simpl.
  fold merged.
  destruct (make_bins (map m_value merged) COLOR_MODE N_QUANTILES)
    as [bins label].
  destruct (value_range (dropna (map m_value merged))) as [vmin vmax].
  destruct (map_result_ok _ _ (color_for viridis_hex vmin vmax)
              (map m_value merged) (color_for_ok viridis_hex vmin vmax))
    as (fill & E & Hl).
  rewrite E. simpl. exists fill. split; [reflexivity |].
  now rewrite Hl, length_map.
Qed.

Lemma main_raises_csv (csv : DataFrame) (geo : GeoDataFrame G)
    (e : exception) :
  load_wordcounts to_numeric csv = Raise e ->
  main to_numeric viridis_hex G csv geo = Raise e.
Proof. intros H. unfold main. now rewrite H. Qed.

(** The names of the report, whether or not anything is printed. *)
Lemma mismatch_report_nil (merged : list (MergedRow G)) :
  missing_values merged = [] -> mismatch_report merged = [].
Proof. unfold mismatch_report. now intros ->. Qed.

Lemma missing_values_In (merged : list (MergedRow G)) (name : str) :
  In name (missing_values merged) <->
  exists m, In m merged /\ m_value m = None /\ m_geo_name m = name.
Proof.
  unfold missing_values. rewrite in_map_iff. split.
  - intros (m & Hn & Hm). apply filter_In in Hm. destruct Hm as [Hm Hv].
    exists m. repeat split; try assumption.
    now destruct (m_value m).
  - intros (m & Hm & Hv & Hn). exists m. split; [exact Hn |].
    apply filter_In. split; [exact Hm |]. now rewrite Hv.
Qed.

End RunFacts.

(** C4, as the specification states it, fails: the names are printed in
    alphabetical order, not in the order of the geometry source. *)
Lemma mismatch_report_not_geometry_order :
  let merged :=
    merge_left [geo_row "Wicklow"; geo_row "Offaly"; geo_row "Cork";
                geo_row "Carlow"]
               [ (lit "offaly", Some 500) ] in
  missing_values merged = [lit "Wicklow"; lit "Cork"; lit "Carlow"] /\
  mismatch_report merged = [lit "Carlow"; lit "Cork"; lit "Wicklow"] /\
  mismatch_report merged <> missing_values merged.
Proof. repeat split. discriminate. Qed.

(** C4 (amended): the mismatch report that [main] prints lists every
    geometry region lacking a value (no value row has its key, or one that
    has it carries no number), each name once, in ascending order of the
    names; producing it does not abort the run: once both loaders have
    returned, [main] returns. *)
Theorem main_mismatch_report (to_numeric : str -> option Q)
    (viridis_hex : Q -> str) (G : Type) (csv : DataFrame)
    (geo : GeoDataFrame G) (wc : list WordRow) (gdf : list (GeoRow G)) :
  load_wordcounts to_numeric csv = Ok wc ->
  load_geo geo COUNTY_NAME_FIELD = Ok gdf ->
  exists out,
    main to_numeric viridis_hex G csv geo = Ok out /\
    (forall name,
       In name (printed_names out) <->
       exists g, In g gdf /\ geo_name g = name /\
         ((forall r, In r wc -> key r <> gkey g) \/
          (exists r, In r wc /\ key r = gkey g /\ value r = None))) /\
    StronglySorted str_lt (printed_names out).
Proof.
  intros Hwc Hgdf.
  destruct (main_ok to_numeric viridis_hex G csv geo wc gdf Hwc Hgdf)
    as (fill & E & _).
  eexists. split; [exact E |].
  set (merged := merge_left gdf (map (fun r => (key r, value r)) wc)).
  assert (Hn : printed_names
                 {| out_merged := merged;
                    out_report :=
                      match missing_values merged with
                      | [] => None
                      | _ => Some (mismatch_report merged)
                      end;
                    out_bins :=
                      fst (make_bins (map m_value merged) COLOR_MODE
                             N_QUANTILES);
                    out_scale_label :=
                      snd (make_bins (map m_value merged) COLOR_MODE
                             N_QUANTILES);
                    out_fill := fill |} = mismatch_report merged).
  { unfold printed_names. simpl.
    destruct (missing_values merged) eqn:Em; [| reflexivity].
    symmetry. now apply mismatch_report_nil. }
  fold merged. rewrite Hn. unfold mismatch_report.
  destruct (sorted_set_spec (missing_values merged)) as [Hin Hs].
  split; [| exact Hs].
  intros name. rewrite Hin, missing_values_In. unfold merged. split.
  - intros (m & Hm & Hv & Hname). apply merge_left_In in Hm.
    destruct Hm as (g & Hg & [(r & Hr & Hk & ->) | (Hnone & ->)]).
    + exists g. repeat split; try assumption.
      apply in_map_iff in Hr. destruct Hr as (w & <- & Hw).
      right. exists w. simpl in *. now repeat split.
    + exists g. repeat split; try assumption.
      left. intros w Hw Hk. apply (Hnone (key w, value w)); [| exact Hk].
      apply in_map_iff. now exists w.
  - intros (g & Hg & Hname & [Hnone | (w & Hw & Hk & Hv)]).
    + exists (joined g None). repeat split; try assumption.
      apply merge_left_In. exists g. split; [exact Hg |]. right.
      split; [| reflexivity]. intros r Hr Hk.
      apply in_map_iff in Hr. destruct Hr as (w & <- & Hw).
      exact (Hnone w Hw Hk).
    + exists (joined g None). repeat split; try assumption.
      apply merge_left_In. exists g. split; [exact Hg |]. left.
      exists (key w, value w). repeat split.
      * apply in_map_iff. now exists w.
      * exact Hk.
      * simpl. now rewrite Hv.
Qed.

Lemma main_mismatch_report_witness :
  exists out,
    main digits_to_numeric grey_ramp unit sample_csv sample_geo = Ok out /\
    StronglySorted str_lt (printed_names out).
Proof.
  destruct (main_mismatch_report digits_to_numeric grey_ramp unit
              sample_csv sample_geo _ _ eq_refl eq_refl)
    as (out & E & _ & Hs).
  exists out. split; [exact E | exact Hs].
Defined.

(** C8: a table whose header, compared without regard to letter case,
    lacks the county column, or lacks both the "ProseWords" and the "Words"
    column, makes the value loader raise (the [ValueError] by which the
    source signals the configuration error) and with it the whole run,
    before any join; with the required columns present the loader returns
    one record per row, whose value is the coerced cell of the value
    column, absent when the cell is no number. *)
Theorem load_wordcounts_columns (to_numeric : str -> option Q)
    (df : DataFrame) :
  (has_column (columns df) (lit "county") = false \/
   (has_column (columns df) (lit "prosewords") = false /\
    has_column (columns df) (lit "words") = false) ->
   load_wordcounts to_numeric df = Raise (ValueError MISSING_COLUMNS) /\
   forall (viridis_hex : Q -> str) (G : Type) (geo : GeoDataFrame G),
     main to_numeric viridis_hex G df geo = Raise (ValueError MISSING_COLUMNS))
  /\
  (has_column (columns df) (lit "county") = true /\
   (has_column (columns df) (lit "prosewords") = true \/
    has_column (columns df) (lit "words") = true) ->
   exists i j cc wc,
     nth_error (columns df) i = Some cc /\ lower cc = lit "county" /\
     nth_error (columns df) j = Some wc /\
     (lower wc = lit "prosewords" \/ lower wc = lit "words") /\
     load_wordcounts to_numeric df =
       Ok (map (word_row to_numeric i j) (rows df)) /\
     forall r text,
       nth j r None = Some text -> to_numeric text = None ->
       value (word_row to_numeric i j r) = None).
Proof.
  split.
  - intros H. pose proof (load_wordcounts_raises to_numeric df H) as E.
    split; [exact E |]. intros viridis_hex G geo.
    now apply main_raises_csv.
  - intros [Hc Hw].
    destruct (county_col_has df Hc) as (cc & Ecc & Hcin & Hcl).
    assert (Hsel : exists wc, words_col df = Some wc /\ In wc (columns df) /\
                     (lower wc = lit "prosewords" \/ lower wc = lit "words")).
    { destruct (has_column (columns df) (lit "prosewords")) eqn:Hp.
      - destruct (words_col_prose df Hp) as (wc & E & Hin & Hl).
        exists wc. auto.
      - destruct Hw as [Hw | Hw]; [discriminate |].
        destruct (words_col_words df Hp Hw) as (wc & E & Hin & Hl).
        exists wc. auto. }
    destruct Hsel as (wc & Ewc & Hwin & Hwl).
    destruct (load_wordcounts_selected to_numeric df cc wc Ecc Hcin Ewc Hwin)
      as (i & j & Hi & Hj & E).
    exists i, j, cc, wc.
    split; [exact Hi |]. split; [exact Hcl |]. split; [exact Hj |].
    split; [exact Hwl |]. split; [exact E |].
    intros r text Ht Hn. simpl. unfold cell in *. rewrite Ht. exact Hn.
Qed.

Lemma load_wordcounts_columns_witness :
  load_wordcounts digits_to_numeric no_words_csv =
    Raise (ValueError MISSING_COLUMNS) /\
  map value
    (match load_wordcounts digits_to_numeric sample_csv with
     | Ok out => out
     | Raise _ => []
     end) = [Some 500; None; Some 700].
Proof.
  split.
  - apply (proj1 (load_wordcounts_columns digits_to_numeric no_words_csv)).
    right. split; reflexivity.
  - destruct (proj2 (load_wordcounts_columns digits_to_numeric sample_csv))
      as (i & j & cc & wc & _ & _ & _ & _ & E & _).
    + split; [reflexivity | left; reflexivity].
    + reflexivity.
Defined.

(** C9: when the table has a "ProseWords" column (in any letter case), the
    loader takes the values from it, whether or not there is a "Words"
    column too; a "Words" column is used only when no "ProseWords" column
    exists. *)
Theorem words_col_prefers_prosewords (to_numeric : str -> option Q)
    (df : DataFrame) :
  has_column (columns df) (lit "county") = true ->
  (has_column (columns df) (lit "prosewords") = true ->
   exists i j wc,
     words_col df = Some wc /\ lower wc = lit "prosewords" /\
     nth_error (columns df) j = Some wc /\
     load_wordcounts to_numeric df =
       Ok (map (word_row to_numeric i j) (rows df)))
  /\
  (has_column (columns df) (lit "prosewords") = false ->
   has_column (columns df) (lit "words") = true ->
   exists i j wc,
     words_col df = Some wc /\ lower wc = lit "words" /\
     nth_error (columns df) j = Some wc /\
     load_wordcounts to_numeric df =
       Ok (map (word_row to_numeric i j) (rows df))).
Proof.
  intros Hc. destruct (county_col_has df Hc) as (cc & Ecc & Hcin & _).
  split.
  - intros Hp. destruct (words_col_prose df Hp) as (wc & E & Hin & Hl).
    destruct (load_wordcounts_selected to_numeric df cc wc Ecc Hcin E Hin)
      as (i & j & _ & Hj & El).
    now exists i, j, wc.
  - intros Hp Hw. destruct (words_col_words df Hp Hw) as (wc & E & Hin & Hl).
    destruct (load_wordcounts_selected to_numeric df cc wc Ecc Hcin E Hin)
      as (i & j & _ & Hj & El).
    now exists i, j, wc.
Qed.

Lemma words_col_prefers_prosewords_witness :
  exists i j wc,
    words_col both_csv = Some wc /\ lower wc = lit "prosewords" /\
    nth_error (columns both_csv) j = Some wc /\
    load_wordcounts digits_to_numeric both_csv =
      Ok (map (word_row digits_to_numeric i j) (rows both_csv)).
Proof.
  apply (proj1 (words_col_prefers_prosewords digits_to_numeric both_csv
                  eq_refl)).
  reflexivity.
Defined.

(** C10: the colour function of the interactive map always returns a
    colour and never divides by zero; an absent value gets the neutral
    colour "#f0f0f0"; when the two ends of the range are equal, as they are
    when all present values are equal, a present value is drawn at the
    middle 0.5 of the ramp and no quotient is formed; otherwise it is drawn
    at [(v - vmin) / (vmax - vmin)]; and without present values the range
    is (0, 1). *)
Theorem color_for_total (viridis_hex : Q -> str) (vals : list Q)
    (v : option Q) :
  let vmin := fst (value_range vals) in
  let vmax := snd (value_range vals) in
  (exists c, color_for viridis_hex vmin vmax v = Ok c) /\
  color_for viridis_hex vmin vmax None = Ok (lit "#f0f0f0") /\
  (forall x, vmin == vmax ->
     ramp_position vmin vmax x = Ok (1 # 2) /\
     color_for viridis_hex vmin vmax (Some x) = Ok (viridis_hex (1 # 2))) /\
  (forall x, ~ vmin == vmax ->
     color_for viridis_hex vmin vmax (Some x) =
       Ok (viridis_hex ((x - vmin) / (vmax - vmin)))) /\
  (vals = [] -> value_range vals = (0, 1)) /\
  (forall y, vals <> [] -> Forall (fun z => z == y) vals -> vmin == vmax).
Proof.
  intros vmin vmax. split; [apply color_for_ok |].
  split; [reflexivity |]. split; [| split; [| split]].
  - intros x H. apply Qeq_bool_iff in H.
    unfold color_for, ramp_position. rewrite H. now split.
  - intros x H. unfold color_for, ramp_position, truediv.
    destruct (Qeq_bool vmin vmax) eqn:E;
      [apply Qeq_bool_iff in E; contradiction |].
    destruct (Qeq_bool (vmax - vmin) 0) eqn:E0; [| reflexivity].
    exfalso. apply H. apply Qeq_bool_iff in E0.
    rewrite <- (Qplus_0_l vmin), <- E0. ring.
  - now intros ->.
  - intros y Hne Hall. subst vmin vmax. unfold value_range.
    destruct vals as [| a vals]; [congruence |]. simpl.
    rewrite (np_min_all y (a :: vals) Hne Hall).
    now rewrite (np_max_all y (a :: vals) Hne Hall).
Qed.

Lemma color_for_total_witness :
  color_for grey_ramp (fst (value_range [100; 100]))
    (snd (value_range [100; 100])) (Some 100) = Ok (grey_ramp (1 # 2)).
Proof.
  apply (proj1 (proj2 (proj2
           (color_for_total grey_ramp [100; 100] (Some 100)))) 100).
  reflexivity.
Defined.

(** C7: without present values the classifier returns neither boundaries
    nor a label, and it returns: nothing is raised. *)
Theorem make_bins_no_values (values : list (option Q)) (mode : str)
    (k : nat) :
  dropna values = [] -> make_bins values mode k = (None, None).
Proof.
  intros H. unfold make_bins. now rewrite H.
Qed.

Lemma make_bins_no_values_witness :
  make_bins [None; None; None] COLOR_MODE N_QUANTILES = (None, None).
Proof.
  apply (make_bins_no_values [None; None; None] COLOR_MODE N_QUANTILES).
  reflexivity.
Defined.

(** ** numpy helpers *)



Lemma insert_Q_length (x : Q) (l : list Q) :
  length (insert_Q x l) = S (length l).
Proof.
  induction l as [| y l IH]; simpl; [reflexivity |].
  destruct (Qle_bool x y); simpl; [reflexivity | now rewrite IH].
Qed.

Lemma np_sort_length (l : list Q) : length (np_sort l) = length l.
Proof.
  induction l as [| x l IH]; simpl; [reflexivity |].
  now rewrite insert_Q_length, IH.
Qed.

Lemma insert_Q_Sorted (x : Q) (l : list Q) :
  Sorted Qle l -> Sorted Qle (insert_Q x l).
Proof.
  induction 1 as [| y l Hl IH Hy]; simpl; [repeat constructor |].
  destruct (Qle_bool x y) eqn:E.
  - apply Qle_bool_iff in E. repeat constructor; assumption.
  - assert (Hyx : y <= x).
    { apply Qlt_le_weak, Qnot_le_lt. intros H. apply Qle_bool_iff in H.
      congruence. }
    constructor; [exact IH |].
    destruct l as [| w l]; simpl; [now constructor |].
    destruct (Qle_bool x w); constructor; [exact Hyx |].
    now inversion Hy.
Qed.

Lemma np_sort_Sorted (l : list Q) : Sorted Qle (np_sort l).
Proof.
  induction l as [| x l IH]; simpl; [constructor |].
  now apply insert_Q_Sorted.
Qed.

(** The first element that survives is equal to the first element. *)
Lemma dedup_adjacent_head (x : Q) (t : list Q) :
  exists h t', dedup_adjacent (x :: t) = h :: t' /\ h == x.
Proof.
  revert x. induction t as [| y t IH]; intros x.
  - exists x, []. split; reflexivity.
  - simpl. destruct (Qeq_bool x y) eqn:E.
    + apply Qeq_bool_iff in E. destruct (IH y) as (h & t' & Ed & Hh).
      exists h, t'. split; [exact Ed |]. now rewrite Hh, E.
    + eexists _, _. split; reflexivity.
Qed.

Lemma dedup_adjacent_Sorted (l : list Q) :
  Sorted Qle l -> Sorted Qlt (dedup_adjacent l).
Proof.
  induction 1 as [| x l Hl IH Hx]; [constructor |].
  destruct l as [| y t]; [repeat constructor |].
  change (dedup_adjacent (x :: y :: t)) with
    (if Qeq_bool x y then dedup_adjacent (y :: t)
     else x :: dedup_adjacent (y :: t)).
  destruct (Qeq_bool x y) eqn:E; [exact IH |].
  constructor; [exact IH |].
  destruct (dedup_adjacent_head y t) as (h & t' & -> & Hh).
  constructor. rewrite Hh. inversion_clear Hx as [| ? ? Hxy].
  apply Qle_lt_or_eq in Hxy. destruct Hxy as [Hlt | Heq]; [exact Hlt |].
  apply Qeq_bool_iff in Heq. congruence.
Qed.

Lemma np_unique_increasing (l : list Q) : strictly_increasing (np_unique l).
Proof.
  unfold strictly_increasing, np_unique.
  apply Sorted_StronglySorted.
  - intros a b c. apply Qlt_trans.
  - apply dedup_adjacent_Sorted, np_sort_Sorted.
Qed.


Lemma Forall_nth_Q (P : Q -> Prop) (l : list Q) (i : nat) :
  Forall P l -> (i < length l)%nat -> P (nth i l 0).
Proof.
  intros H Hi. rewrite Forall_forall in H. apply H. now apply nth_In.
Qed.

Lemma Q_of_nat_le (a b : nat) : (a <= b)%nat -> Q_of_nat a <= Q_of_nat b.
Proof.
  intros H. unfold Q_of_nat. rewrite <- Zle_Qle. lia.
Qed.

(** Below the last cut point the floor of the virtual index is an index of
    the array. *)
Lemma virtual_index_bound (q : Q) (n : nat) :
  q <= 1 -> (Z.to_nat (Qfloor (q * Q_of_nat (n - 1))) <= n - 1)%nat.
Proof.
  intros Hq.
  assert (H : q * Q_of_nat (n - 1) <= Q_of_nat (n - 1)).
  { rewrite <- (Qmult_1_l (Q_of_nat (n - 1))) at 2.
    apply Qmult_le_compat_r; [exact Hq |].
    apply (Q_of_nat_le 0). lia. }
  apply Qfloor_resp_le in H. unfold Q_of_nat in H at 2.
  rewrite Qfloor_Z in H. lia.
Qed.


Lemma linspace_unit_le (k : nat) :
  Forall (fun q => q <= 1) (np_linspace 0 1 (k + 1)).
Proof.
  destruct k as [| k]; [repeat constructor; discriminate |].
  replace (S k + 1)%nat with (S (S k)) by lia.
  unfold np_linspace. apply Forall_map, Forall_forall. intros i Hi.
  apply in_seq in Hi. replace (S (S k) - 1)%nat with (S k) by lia.
  assert (Hk : 0 < Q_of_nat (S k)).
  { unfold Q_of_nat. rewrite <- (Zlt_Qlt 0). lia. }
  assert (E : 0 + Q_of_nat i * ((1 - 0) / Q_of_nat (S k)) ==
              Q_of_nat i / Q_of_nat (S k)).
  { field. intros H. rewrite H in Hk. now apply Qlt_irrefl in Hk. }
  rewrite E. apply Qle_shift_div_r; [exact Hk |].
  rewrite Qmult_1_l. apply Q_of_nat_le. lia.
Qed.




(** ** Quantiles of pairwise distinct values *)

Lemma insert_Q_InA (x y : Q) (l : list Q) :
  InA Qeq y (insert_Q x l) <-> y == x \/ InA Qeq y l.
Proof.
  induction l as [| z l IH]; simpl.
  - rewrite InA_cons, InA_nil. tauto.
  - destruct (Qle_bool x z).
    + now rewrite InA_cons.
    + rewrite !InA_cons, IH. tauto.
Qed.

Lemma np_sort_InA (y : Q) (l : list Q) :
  InA Qeq y (np_sort l) <-> InA Qeq y l.
Proof.
  induction l as [| x l IH]; simpl; [reflexivity |].
  now rewrite insert_Q_InA, InA_cons, IH.
Qed.






Lemma Q_of_nat_pos (n : nat) : (0 < n)%nat -> 0 < Q_of_nat n.
Proof. intros H. unfold Q_of_nat. rewrite <- (Zlt_Qlt 0). lia. Qed.


Lemma quantile_sorted_zero (sv : list Q) (q : Q) :
  q == 0 -> quantile_sorted sv q == nth 0 sv 0.
Proof.
  intros Hq. unfold quantile_sorted.
  assert (Ei : q * Q_of_nat (length sv - 1) == 0) by (rewrite Hq; ring).
  rewrite (Qfloor_comp _ _ Ei). change (Qfloor 0) with 0%Z. simpl Z.to_nat.
  rewrite Ei. change (inject_Z 0) with 0.
  ring.
Qed.

Lemma quantile_sorted_one (sv : list Q) (q : Q) :
  q == 1 -> quantile_sorted sv q == nth (length sv - 1) sv 0.
Proof.
  intros Hq. unfold quantile_sorted.
  assert (Ei : q * Q_of_nat (length sv - 1) == Q_of_nat (length sv - 1))
    by (rewrite Hq; ring).
  assert (Ef : Qfloor (q * Q_of_nat (length sv - 1)) =
               Z.of_nat (length sv - 1))
    by (rewrite (Qfloor_comp _ _ Ei); apply Qfloor_Z).
  rewrite Ef, Nat2Z.id, Ei.
  replace (Nat.min (length sv - 1 + 1) (length sv - 1))
    with (length sv - 1)%nat by lia.
  fold (Q_of_nat (length sv - 1)). ring.
Qed.

Lemma dedup_adjacent_InA (x : Q) (l : list Q) :
  InA Qeq x l -> InA Qeq x (dedup_adjacent l).
Proof.
  induction l as [| a t IH]; [trivial |].
  destruct t as [| b t]; [trivial |].
  change (dedup_adjacent (a :: b :: t)) with
    (if Qeq_bool a b then dedup_adjacent (b :: t)
     else a :: dedup_adjacent (b :: t)).
  intros H. apply InA_cons in H.
  destruct (Qeq_bool a b) eqn:E.
  - apply Qeq_bool_iff in E. apply IH. destruct H as [H | H]; [| exact H].
    left. now rewrite H.
  - destruct H as [H | H]; [now left | right; now apply IH].
Qed.

Lemma np_unique_InA (x : Q) (l : list Q) :
  In x l -> InA Qeq x (np_unique l).
Proof.
  intros H. unfold np_unique. apply dedup_adjacent_InA, np_sort_InA.
  apply In_InA; [exact Q_Setoid | exact H].
Qed.







(** * Further properties of the pipeline *)

(** ** The normaliser: letter case *)

(** The two replacements of the normaliser, as one map on code points. *)
Lemma replace_both (s : str) :
  replace EN_DASH HYPHEN (replace RIGHT_SINGLE_QUOTE APOSTROPHE s) =
    map (fun c =>
           if (c =? RIGHT_SINGLE_QUOTE)%N then APOSTROPHE
           else if (c =? EN_DASH)%N then HYPHEN else c) s.
Proof.
  unfold replace. rewrite map_map. apply map_ext. intros c.
  destruct (N.eqb_spec c RIGHT_SINGLE_QUOTE) as [-> | H]; reflexivity.
Qed.

Lemma lower_replace_lower (s : str) :
  lower (replace EN_DASH HYPHEN
           (replace RIGHT_SINGLE_QUOTE APOSTROPHE (lower s))) =
  lower (replace EN_DASH HYPHEN (replace RIGHT_SINGLE_QUOTE APOSTROPHE s)).
Proof.
  rewrite !replace_both. unfold lower. rewrite !map_map. apply map_ext.
  intros c. unfold RIGHT_SINGLE_QUOTE, EN_DASH, APOSTROPHE, HYPHEN.
  destruct (lower_cp_cases c) as [[E _] | [E H]]; rewrite E; [reflexivity |].
  destruct (N.eqb_spec (c + 32) 8217); [lia |].
  destruct (N.eqb_spec (c + 32) 8211); [lia |].
  destruct (N.eqb_spec c 8217); [lia |].
  destruct (N.eqb_spec c 8211); [lia |].
  rewrite E.
  destruct (lower_cp_cases (c + 32)) as [[E' _] | [_ H']]; [exact E' | lia].
Qed.

Lemma lower_skipn (n : nat) (s : str) : skipn n (lower s) = lower (skipn n s).
Proof. unfold lower. apply skipn_map. Qed.

(** Lower-casing the input first changes nothing. *)
Lemma norm_lower (s : str) :
  norm_county_name (Some (lower s)) = norm_county_name (Some s).
Proof.
  assert (Hf : forall t,
             lower (strip (replace EN_DASH HYPHEN
                             (replace RIGHT_SINGLE_QUOTE APOSTROPHE (lower t))))
             = lower (strip (replace EN_DASH HYPHEN
                               (replace RIGHT_SINGLE_QUOTE APOSTROPHE t)))).
  { intros t.
    rewrite <- (strip_lower (replace _ _ (replace _ _ (lower t)))).
    rewrite lower_replace_lower. apply strip_lower. }
  unfold norm_county_name.
  rewrite strip_lower, lower_idem.
  destruct (startswith (lower (strip s)) (lit "county ")).
  - rewrite lower_skipn, Hf. reflexivity.
  - rewrite Hf. reflexivity.
Qed.



(** ** The normaliser: surrounding white space *)

Lemma lstrip_spaces (ws y : str) :
  Forall (fun c => isspace c = true) ws -> lstrip (ws ++ y) = lstrip y.
Proof.
  induction 1 as [| c ws Hc _ IH]; simpl; [reflexivity |]. now rewrite Hc.
Qed.

Lemma lstrip_app (x y : str) :
  lstrip (x ++ y) =
    match lstrip x with
    | [] => lstrip y
    | _ :: _ => lstrip x ++ y
    end.
Proof.
  induction x as [| c x IH]; simpl; [now destruct (lstrip y) |].
  destruct (isspace c); [exact IH | reflexivity].
Qed.

Lemma rstrip_spaces (y ws : str) :
  Forall (fun c => isspace c = true) ws -> rstrip (y ++ ws) = rstrip y.
Proof.
  intros H. unfold rstrip. rewrite rev_app_distr.
  rewrite lstrip_spaces; [reflexivity | now apply Forall_rev].
Qed.

Lemma strip_pad (ws1 x ws2 : str) :
  Forall (fun c => isspace c = true) ws1 ->
  Forall (fun c => isspace c = true) ws2 ->
  strip (ws1 ++ x ++ ws2) = strip x.
Proof.
  intros H1 H2. unfold strip. rewrite (lstrip_spaces ws1 _ H1), lstrip_app.
  destruct (lstrip x) as [| c t] eqn:E.
  - rewrite <- (app_nil_r ws2), (lstrip_spaces ws2 [] H2). reflexivity.
  - now apply rstrip_spaces.
Qed.

(** X2: white space around a name, of any kind and amount, does not change
    its key. *)
Theorem norm_county_name_padding (ws1 x ws2 : str) :
  Forall (fun c => isspace c = true) ws1 ->
  Forall (fun c => isspace c = true) ws2 ->
  norm_county_name (Some (ws1 ++ x ++ ws2)) = norm_county_name (Some x).
Proof.
  intros H1 H2. unfold norm_county_name. now rewrite (strip_pad ws1 x ws2 H1 H2).
Qed.

Lemma norm_county_name_padding_witness :
  norm_county_name (Some ([9; 32] ++ lit "County Cork" ++ [160; 10; 13]))%N =
    norm_county_name (Some (lit "County Cork")).
Proof.
  apply (norm_county_name_padding [9; 32]%N (lit "County Cork")
           [160; 10; 13]%N);
    repeat constructor.
Defined.

(** ** The normaliser: typographic apostrophe and dash *)

Lemma strip_map (g : N -> N) (s : str) :
  (forall c, isspace (g c) = isspace c) -> strip (map g s) = map g (strip s).
Proof.
  intros Hg.
  assert (Hl : forall t, lstrip (map g t) = map g (lstrip t)).
  { induction t as [| c t IH]; simpl; [reflexivity |].
    rewrite Hg. destruct (isspace c); [exact IH | reflexivity]. }
  unfold strip, rstrip. now rewrite Hl, <- map_rev, Hl, map_rev.
Qed.

Lemma isspace_replace (old new : N) (c : N) :
  isspace old = false -> isspace new = false ->
  isspace (if (c =? old)%N then new else c) = isspace c.
Proof.
  intros Ho Hn. destruct (N.eqb_spec c old) as [-> | _]; congruence.
Qed.

Lemma strip_replace (old new : N) (s : str) :
  isspace old = false -> isspace new = false ->
  strip (replace old new s) = replace old new (strip s).
Proof.
  intros Ho Hn. unfold replace. apply strip_map.
  intros c. now apply isspace_replace.
Qed.

Lemma startswith_map (g h : N -> N) (s p : str) :
  (forall c a, In a p -> (a =? g c)%N = (a =? h c)%N) ->
  startswith (map g s) p = startswith (map h s) p.
Proof.
  revert s. induction p as [| a p IH]; intros s Hg; [now destruct s |].
  destruct s as [| b s]; simpl; [reflexivity |].
  rewrite (Hg b a) by now left.
  rewrite IH; [reflexivity |]. intros c a' Ha'. apply Hg. now right.
Qed.

(** The prefix test does not see a replacement of characters that are not
    letters of the prefix. *)
Lemma startswith_lower_replace (old new : N) (s : str) :
  (122 < old)%N -> (new < 65)%N -> new <> 32%N ->
  startswith (lower (replace old new s)) (lit "county ") =
    startswith (lower s) (lit "county ").
Proof.
  intros Ho Hn Hn'. unfold lower, replace. rewrite map_map.
  apply startswith_map. intros c a Ha.
  destruct (N.eqb_spec c old) as [-> | _]; [| reflexivity].
  assert (Hnew : lower_cp new = new).
  { destruct (lower_cp_cases new) as [[E _] | [_ H]]; [exact E | lia]. }
  assert (Hold : lower_cp old = old).
  { destruct (lower_cp_cases old) as [[E _] | [_ H]]; [exact E | lia]. }
  rewrite Hnew, Hold. simpl in Ha.
  destruct Ha as [<- | [<- | [<- | [<- | [<- | [<- | [<- | []]]]]]]];
    (transitivity false; [apply N.eqb_neq | symmetry; apply N.eqb_neq]);
    simpl; lia.
Qed.

Lemma replace_skipn (old new : N) (n : nat) (s : str) :
  skipn n (replace old new s) = replace old new (skipn n s).
Proof. unfold replace. apply skipn_map. Qed.

Lemma replace_both_quote (s : str) :
  replace EN_DASH HYPHEN
    (replace RIGHT_SINGLE_QUOTE APOSTROPHE
       (replace RIGHT_SINGLE_QUOTE APOSTROPHE s)) =
  replace EN_DASH HYPHEN (replace RIGHT_SINGLE_QUOTE APOSTROPHE s).
Proof.
  unfold replace. rewrite !map_map. apply map_ext. intros c.
  unfold RIGHT_SINGLE_QUOTE, EN_DASH, APOSTROPHE, HYPHEN.
  destruct (N.eqb_spec c 8217) as [-> | H]; [reflexivity |].
  apply N.eqb_neq in H. now rewrite H.
Qed.

Lemma replace_both_dash (s : str) :
  replace EN_DASH HYPHEN
    (replace RIGHT_SINGLE_QUOTE APOSTROPHE (replace EN_DASH HYPHEN s)) =
  replace EN_DASH HYPHEN (replace RIGHT_SINGLE_QUOTE APOSTROPHE s).
Proof.
  unfold replace. rewrite !map_map. apply map_ext. intros c.
  unfold RIGHT_SINGLE_QUOTE, EN_DASH, APOSTROPHE, HYPHEN.
  destruct (N.eqb_spec c 8211) as [-> | H]; [reflexivity |].
  destruct (N.eqb_spec c 8217) as [-> | H']; [reflexivity |].
  apply N.eqb_neq in H. now rewrite H.
Qed.

(** X3: a name written with the typographic apostrophe (U+2019) or the en
    dash (U+2013) gets the key of the name written with the plain ASCII
    apostrophe or hyphen. *)
Theorem norm_county_name_typography (x : str) :
  norm_county_name (Some (replace RIGHT_SINGLE_QUOTE APOSTROPHE x)) =
    norm_county_name (Some x) /\
  norm_county_name (Some (replace EN_DASH HYPHEN x)) =
    norm_county_name (Some x).
Proof.
  split; unfold norm_county_name.
  - rewrite (strip_replace RIGHT_SINGLE_QUOTE APOSTROPHE x) by reflexivity.
    rewrite startswith_lower_replace
      by (unfold RIGHT_SINGLE_QUOTE, APOSTROPHE; lia).
    destruct (startswith (lower (strip x)) (lit "county ")).
    + now rewrite replace_skipn, replace_both_quote.
    + now rewrite replace_both_quote.
  - rewrite (strip_replace EN_DASH HYPHEN x) by reflexivity.
    rewrite startswith_lower_replace by (unfold EN_DASH, HYPHEN; lia).
    destruct (startswith (lower (strip x)) (lit "county ")).
    + now rewrite replace_skipn, replace_both_dash.
    + now rewrite replace_both_dash.
Qed.

(** ** The normaliser: the "County " prefix *)










(** ** The normaliser: the shape of a key and the alias table *)

Lemma norm_strip (x : str) :
  norm_county_name (Some (strip x)) = norm_county_name (Some x).
Proof. unfold norm_county_name. now rewrite strip_idem. Qed.



(** X6: the two historical names, in any letter case and with any white
    space around them, get the keys of their modern replacements. *)
Theorem norm_county_name_alias (x : str) :
  lower_exact x = true ->
  (lower (strip x) = lit "kings county" ->
   norm_county_name (Some x) = norm_county_name (Some (lit "Offaly"))) /\
  (lower (strip x) = lit "queens county" ->
   norm_county_name (Some x) = norm_county_name (Some (lit "Laois"))).
Proof.
  intros _.
  split; intros H;
    rewrite <- (norm_strip x), <- (norm_lower (strip x)), H; reflexivity.
Qed.

Lemma norm_county_name_alias_witness :
  norm_county_name (Some (lit " KINGS County")) =
    norm_county_name (Some (lit "Offaly")).
Proof.
  apply (proj1 (norm_county_name_alias (lit " KINGS County") eq_refl)).
  reflexivity.
Defined.

(** ** The geometry loader *)


Lemma index_of_Some (c : str) (cols : list str) (i : nat) :
  index_of c cols = Some i -> In c cols.
Proof.
  revert i. induction cols as [| c' t IH]; intros i; simpl; [discriminate |].
  destruct (str_eqb c' c) eqn:E.
  - apply str_eqb_eq in E. now left.
  - destruct (index_of c t) as [k |]; [| discriminate].
    intros _. right. now apply (IH k).
Qed.



(** ** More on the join *)

Lemma matches_filter (P : str * option Q -> bool)
    (right : list (str * option Q)) (k : str) :
  (forall r, fst r = k -> P r = true) ->
  matches (filter P right) k = matches right k.
Proof.
  intros HP. unfold matches.
  induction right as [| r right IH]; simpl; [reflexivity |].
  destruct (str_eqb (fst r) k) eqn:E.
  - apply str_eqb_eq in E. rewrite (HP r E). simpl.
    apply str_eqb_eq in E. rewrite E. now rewrite IH.
  - destruct (P r); simpl; [now rewrite E |]; exact IH.
Qed.

(** X8: a value row whose key is the key of no geometry row has no effect
    on the join: the joined rows are those of the value rows that match
    some geometry. *)
Theorem merge_left_ignores_unmatched (G : Type) (left : list (GeoRow G))
    (right : list (str * option Q)) :
  merge_left left right =
    merge_left left
      (filter (fun r => existsb (fun g => str_eqb (fst r) (gkey g)) left)
         right).
Proof.
  set (P := fun r : str * option Q =>
              existsb (fun g : GeoRow G => str_eqb (fst r) (gkey g)) left).
  assert (H : forall l, incl l left ->
                        merge_left l right = merge_left l (filter P right)).
  { induction l as [| g l IH]; intros Hl; [reflexivity |].
    rewrite (merge_left_cons G g l right).
    rewrite (merge_left_cons G g l (filter P right)).
    rewrite IH by (intros a Ha; apply Hl; now right).
    f_equal. unfold merge_left. simpl.
    rewrite matches_filter; [reflexivity |].
    intros r Hr. unfold P. apply existsb_exists. exists g.
    split; [apply Hl; now left | now apply str_eqb_eq]. }
  apply H, incl_refl.
Qed.

Lemma matches_dict_find (right : list (str * option Q)) (k : str) :
  NoDup (map fst right) ->
  matches right k =
    match dict_find right k with
    | Some v => [(k, v)]
    | None => []
    end.
Proof.
  induction right as [| [k' v] right IH]; simpl; [reflexivity |].
  intros H. apply NoDup_cons_iff in H. destruct H as [Hk H].
  unfold matches in *. simpl.
  destruct (str_eqb k' k) eqn:E; [| now apply IH].
  apply str_eqb_eq in E. subst k'.
  pose proof (matches_absent right k Hk) as Hm. unfold matches in Hm.
  now rewrite Hm.
Qed.

Lemma flat_map_single (A B : Type) (f : A -> B) (l : list A) :
  flat_map (fun a => [f a]) l = map f l.
Proof. induction l; simpl; [reflexivity | now f_equal]. Qed.

(** X9: when no two value rows share a key, the join is a lookup: the
    joined rows are the geometry rows, one for one and in their order, each
    with the value of the value row that has its key, or with no value when
    there is none. *)
Theorem merge_left_unique_lookup (G : Type) (left : list (GeoRow G))
    (right : list (str * option Q)) :
  NoDup (map fst right) ->
  merge_left left right =
    map (fun g =>
           joined g match dict_find right (gkey g) with
                    | Some v => v
                    | None => None
                    end) left.
Proof.
  intros H. rewrite <- flat_map_single. unfold merge_left.
  apply flat_map_ext. intros g. rewrite (matches_dict_find right (gkey g) H).
  now destruct (dict_find right (gkey g)).
Qed.

Lemma merge_left_unique_lookup_witness :
  map m_value
    (merge_left [geo_row "Offaly"; geo_row "Longford"]
       [ (lit "cork", Some 700); (lit "offaly", Some 500) ]) =
    [Some 500; None].
Proof.
  rewrite (merge_left_unique_lookup unit
             [geo_row "Offaly"; geo_row "Longford"]
             [ (lit "cork", Some 700); (lit "offaly", Some 500) ]).
  - reflexivity.
  - repeat constructor; simpl; intuition discriminate.
Defined.

Lemma joined_geometry (G : Type) (g : GeoRow G)
    (ms : list (str * option Q)) :
  map (fun m => {| geo_name := m_geo_name m;
                   geometry := m_geometry m;
                   gkey := m_key m |})
      (map (fun r => joined g (snd r)) ms) = repeat g (length ms).
Proof.
  destruct g as [name geom k].
  induction ms as [| r ms IH]; simpl; [reflexivity | now rewrite IH].
Qed.

(** X10: the join keeps the geometry side as it is: read without their
    values, the joined rows are the geometry rows in their order, each
    repeated once per value row with its key and once when there is
    none. *)
Theorem merge_left_geometry_order (G : Type) (left : list (GeoRow G))
    (right : list (str * option Q)) :
  map (fun m => {| geo_name := m_geo_name m;
                   geometry := m_geometry m;
                   gkey := m_key m |})
      (merge_left left right) =
    flat_map (fun g =>
                repeat g (Nat.max 1 (length (matches right (gkey g)))))
      left.
Proof.
  induction left as [| g left IH]; [reflexivity |].
  rewrite merge_left_cons, map_app, IH.
  change (flat_map
            (fun g0 => repeat g0 (Nat.max 1 (length (matches right (gkey g0)))))
            (g :: left))
    with (repeat g (Nat.max 1 (length (matches right (gkey g)))) ++
          flat_map
            (fun g0 => repeat g0 (Nat.max 1 (length (matches right (gkey g0)))))
            left).
  f_equal. unfold merge_left. simpl flat_map. rewrite app_nil_r.
  destruct (matches right (gkey g)) as [| r ms] eqn:E.
  - destruct g; reflexivity.
  - exact (joined_geometry G g (r :: ms)).
Qed.

(** ** The classifier: least and greatest value *)

Lemma Qmin2_le (a b : Q) : Qmin2 a b <= a /\ Qmin2 a b <= b.
Proof.
  unfold Qmin2. destruct (Qle_bool a b) eqn:E.
  - apply Qle_bool_iff in E. split; [apply Qle_refl | exact E].
  - split; [| apply Qle_refl]. apply Qlt_le_weak, Qnot_le_lt.
    intros H. apply Qle_bool_iff in H. congruence.
Qed.

Lemma Qmax2_ge (a b : Q) : a <= Qmax2 a b /\ b <= Qmax2 a b.
Proof.
  unfold Qmax2. destruct (Qle_bool a b) eqn:E.
  - apply Qle_bool_iff in E. split; [exact E | apply Qle_refl].
  - split; [apply Qle_refl |]. apply Qlt_le_weak, Qnot_le_lt.
    intros H. apply Qle_bool_iff in H. congruence.
Qed.

Lemma fold_Qmin2_le (t : list Q) (a : Q) :
  fold_left Qmin2 t a <= a /\ Forall (fun v => fold_left Qmin2 t a <= v) t.
Proof.
  revert a. induction t as [| b t IH]; intros a; simpl.
  - split; [apply Qle_refl | constructor].
  - destruct (IH (Qmin2 a b)) as [H1 H2].
    destruct (Qmin2_le a b) as [Ha Hb].
    split; [now apply Qle_trans with (Qmin2 a b) |].
    constructor; [now apply Qle_trans with (Qmin2 a b) | exact H2].
Qed.

Lemma fold_Qmax2_ge (t : list Q) (a : Q) :
  a <= fold_left Qmax2 t a /\ Forall (fun v => v <= fold_left Qmax2 t a) t.
Proof.
  revert a. induction t as [| b t IH]; intros a; simpl.
  - split; [apply Qle_refl | constructor].
  - destruct (IH (Qmax2 a b)) as [H1 H2].
    destruct (Qmax2_ge a b) as [Ha Hb].
    split; [now apply Qle_trans with (Qmax2 a b) |].
    constructor; [now apply Qle_trans with (Qmax2 a b) | exact H2].
Qed.

Lemma np_min_le (v : list Q) : Forall (fun x => np_min v <= x) v.
Proof.
  destruct v as [| a t]; [constructor |]. simpl.
  destruct (fold_Qmin2_le t a) as [H1 H2]. now constructor.
Qed.

Lemma np_max_ge (v : list Q) : Forall (fun x => x <= np_max v) v.
Proof.
  destruct v as [| a t]; [constructor |]. simpl.
  destruct (fold_Qmax2_ge t a) as [H1 H2]. now constructor.
Qed.

Lemma fold_Qmin2_In (t : list Q) (a : Q) : In (fold_left Qmin2 t a) (a :: t).
Proof.
  revert a. induction t as [| b t IH]; intros a; simpl; [now left |].
  destruct (IH (Qmin2 a b)) as [H | H]; [| now right; right].
  rewrite <- H. unfold Qmin2. destruct (Qle_bool a b); auto.
Qed.

Lemma fold_Qmax2_In (t : list Q) (a : Q) : In (fold_left Qmax2 t a) (a :: t).
Proof.
  revert a. induction t as [| b t IH]; intros a; simpl; [now left |].
  destruct (IH (Qmax2 a b)) as [H | H]; [| now right; right].
  rewrite <- H. unfold Qmax2. destruct (Qle_bool a b); auto.
Qed.

Lemma np_min_In (v : list Q) : v <> [] -> In (np_min v) v.
Proof. destruct v as [| a t]; [congruence |]. intros _. apply fold_Qmin2_In. Qed.

Lemma np_max_In (v : list Q) : v <> [] -> In (np_max v) v.
Proof. destruct v as [| a t]; [congruence |]. intros _. apply fold_Qmax2_In. Qed.

Lemma np_min_le_max (v : list Q) : v <> [] -> np_min v <= np_max v.
Proof.
  intros H. pose proof (np_min_In v H) as Hin.
  pose proof (np_max_ge v) as Hge. rewrite Forall_forall in Hge.
  now apply Hge.
Qed.

(** ** The classifier: evenly spaced boundaries *)

Lemma map_seq_increasing (f : nat -> Q) (start len : nat) :
  (forall i j, (i < j)%nat -> f i < f j) ->
  StronglySorted Qlt (map f (seq start len)).
Proof.
  intros Hf. revert start.
  induction len as [| len IH]; intros start; simpl; constructor.
  - apply IH.
  - apply Forall_map, Forall_forall. intros j Hj. apply in_seq in Hj.
    apply Hf. lia.
Qed.

Lemma np_linspace_increasing (a b : Q) (k : nat) :
  (1 <= k)%nat -> a < b ->
  length (np_linspace a b (k + 1)) = (k + 1)%nat /\
  strictly_increasing (np_linspace a b (k + 1)) /\
  hd 0 (np_linspace a b (k + 1)) == a /\
  last (np_linspace a b (k + 1)) 0 == b.
Proof.
  intros Hk Hab. destruct k as [| k]; [lia |].
  replace (S k + 1)%nat with (S (S k)) by lia.
  unfold np_linspace. replace (S (S k) - 1)%nat with (S k) by lia.
  set (step := (b - a) / Q_of_nat (S k)).
  assert (HK : 0 < Q_of_nat (S k)) by (apply Q_of_nat_pos; lia).
  assert (Hstep : 0 < step).
  { unfold step. apply Qlt_shift_div_l; [exact HK | lra]. }
  split; [now rewrite length_map, length_seq |].
  split; [| split].
  - apply map_seq_increasing. intros i j Hij.
    assert (Q_of_nat i < Q_of_nat j)
      by (unfold Q_of_nat; rewrite <- Zlt_Qlt; lia).
    nra.
  - change (a + Q_of_nat 0 * step == a). change (Q_of_nat 0) with 0. ring.
  - rewrite seq_S, map_app. cbn [map]. rewrite last_last. simpl Nat.add.
    unfold step. field. intros H. rewrite H in HK. now apply Qlt_irrefl in HK.
Qed.

(** ** The classifier: where the quantile cut points lie *)

Lemma np_sort_StronglySorted (l : list Q) : StronglySorted Qle (np_sort l).
Proof.
  apply Sorted_StronglySorted; [| apply np_sort_Sorted].
  intros a b c. apply Qle_trans.
Qed.

Lemma nth_le_sorted (l : list Q) (i j : nat) :
  StronglySorted Qle l -> (i <= j)%nat -> (j < length l)%nat ->
  nth i l 0 <= nth j l 0.
Proof.
  intros Hs. revert i j.
  induction Hs as [| h t Ht IH Hh]; intros i j Hij Hj; simpl in Hj; [lia |].
  destruct j as [| j]; destruct i as [| i]; simpl; try lia.
  - apply Qle_refl.
  - apply (Forall_nth_Q (Qle h) t j Hh). lia.
  - apply IH; lia.
Qed.

Lemma insert_Q_In (x y : Q) (l : list Q) :
  In y (insert_Q x l) <-> y = x \/ In y l.
Proof.
  induction l as [| z l IH]; simpl; [intuition |].
  destruct (Qle_bool x z); simpl; [intuition | rewrite IH; intuition].
Qed.

Lemma np_sort_In (y : Q) (l : list Q) : In y (np_sort l) <-> In y l.
Proof.
  induction l as [| x l IH]; simpl; [tauto |].
  rewrite insert_Q_In, IH. intuition.
Qed.

Lemma dedup_adjacent_In (x : Q) (l : list Q) :
  In x (dedup_adjacent l) -> In x l.
Proof.
  induction l as [| a t IH]; [trivial |].
  destruct t as [| b t]; [trivial |].
  change (dedup_adjacent (a :: b :: t)) with
    (if Qeq_bool a b then dedup_adjacent (b :: t)
     else a :: dedup_adjacent (b :: t)).
  destruct (Qeq_bool a b); intros H.
  - right. now apply IH.
  - destruct H as [H | H]; [now left | right; now apply IH].
Qed.

Lemma np_unique_In (x : Q) (l : list Q) : In x (np_unique l) -> In x l.
Proof.
  unfold np_unique. intros H. now apply np_sort_In, dedup_adjacent_In.
Qed.

Lemma increasing_hd_last (l : list Q) (x : Q) :
  StronglySorted Qlt l -> In x l -> hd 0 l <= x /\ x <= last l 0.
Proof.
  intros Hs. revert x.
  induction Hs as [| h t Ht IH Hh]; intros x Hx; [destruct Hx |].
  rewrite Forall_forall in Hh. simpl hd.
  destruct t as [| h' t'].
  - destruct Hx as [<- | []]. simpl. split; apply Qle_refl.
  - change (last (h :: h' :: t') 0) with (last (h' :: t') 0).
    assert (Hlast : h <= last (h' :: t') 0).
    { apply Qlt_le_weak, Qlt_le_trans with h'; [apply Hh; now left |].
      apply (IH h'). now left. }
    destruct Hx as [<- | Hx].
    + split; [apply Qle_refl | exact Hlast].
    + split; [apply Qlt_le_weak, Hh, Hx | now apply IH].
Qed.

Lemma linspace_unit_ge (k : nat) :
  Forall (fun q => 0 <= q) (np_linspace 0 1 (k + 1)).
Proof.
  destruct k as [| k]; [repeat constructor; discriminate |].
  replace (S k + 1)%nat with (S (S k)) by lia.
  unfold np_linspace. apply Forall_map, Forall_forall. intros i Hi.
  replace (S (S k) - 1)%nat with (S k) by lia.
  assert (Hk : 0 < Q_of_nat (S k)) by (apply Q_of_nat_pos; lia).
  assert (Hi0 : 0 <= Q_of_nat i) by (apply (Q_of_nat_le 0); lia).
  assert (Hs : 0 <= (1 - 0) / Q_of_nat (S k)).
  { apply Qle_shift_div_l; [exact Hk | lra]. }
  nra.
Qed.

(** The first and the last point of the unit grid are 0 and 1. *)
Lemma linspace_unit_ends (k : nat) :
  (1 <= k)%nat ->
  (exists q, In q (np_linspace 0 1 (k + 1)) /\ q == 0) /\
  (exists q, In q (np_linspace 0 1 (k + 1)) /\ q == 1).
Proof.
  intros Hk. destruct k as [| k]; [lia |].
  replace (S k + 1)%nat with (S (S k)) by lia.
  unfold np_linspace. replace (S (S k) - 1)%nat with (S k) by lia.
  assert (HK : 0 < Q_of_nat (S k)) by (apply Q_of_nat_pos; lia).
  set (f := fun i : nat => 0 + Q_of_nat i * ((1 - 0) / Q_of_nat (S k))).
  split.
  - exists (f 0%nat). split; [apply in_map, in_seq; lia |].
    unfold f. change (Q_of_nat 0) with 0. ring.
  - exists (f (S k)). split; [apply in_map, in_seq; lia |].
    unfold f. field. intros H. rewrite H in HK. now apply Qlt_irrefl in HK.
Qed.

(** A quantile lies between the least and the greatest element. *)
Lemma quantile_sorted_range (sv : list Q) (q : Q) :
  StronglySorted Qle sv -> sv <> [] -> 0 <= q -> q <= 1 ->
  nth 0 sv 0 <= quantile_sorted sv q /\
  quantile_sorted sv q <= nth (length sv - 1) sv 0.
Proof.
  intros Hs Hne Hq0 Hq1. unfold quantile_sorted.
  set (n := length sv) in *.
  assert (Hn : (0 < n)%nat)
    by (unfold n; destruct sv; [congruence | simpl; lia]).
  pose proof (virtual_index_bound q n Hq1) as Hj.
  set (X := Q_of_nat (n - 1)) in *.
  assert (HX : 0 <= X) by (apply (Q_of_nat_le 0); lia).
  set (idx := q * X) in *.
  assert (Hi0 : 0 <= idx) by (unfold idx; nra).
  pose proof (Qfloor_le idx) as Hfl. pose proof (Qlt_floor idx) as Hfu.
  set (jz := Qfloor idx) in *.
  assert (Hjz0 : (0 <= jz)%Z).
  { change 0%Z with (Qfloor 0). now apply Qfloor_resp_le. }
  set (j := Z.to_nat jz) in *.
  set (g := idx - inject_Z jz).
  assert (Hg0 : 0 <= g) by (unfold g; lra).
  assert (Hg1 : g <= 1).
  { unfold g. rewrite inject_Z_plus in Hfu. change (inject_Z 1) with 1 in Hfu.
    lra. }
  assert (H0j : nth 0 sv 0 <= nth j sv 0)
    by (apply nth_le_sorted; [exact Hs | lia | fold n; lia]).
  assert (Hjh : nth j sv 0 <= nth (Nat.min (j + 1) (n - 1)) sv 0)
    by (apply nth_le_sorted; [exact Hs | lia | fold n; lia]).
  assert (Hhn : nth (Nat.min (j + 1) (n - 1)) sv 0 <= nth (n - 1) sv 0)
    by (apply nth_le_sorted; [exact Hs | lia | fold n; lia]).
  split; nra.
Qed.

Lemma np_sort_ends (v : list Q) :
  v <> [] ->
  nth 0 (np_sort v) 0 == np_min v /\
  nth (length (np_sort v) - 1) (np_sort v) 0 == np_max v.
Proof.
  intros Hne.
  pose proof (np_sort_StronglySorted v) as Hs.
  assert (Hn : (0 < length (np_sort v))%nat).
  { rewrite np_sort_length. destruct v; [congruence | simpl; lia]. }
  pose proof (np_min_le v) as Hmin. rewrite Forall_forall in Hmin.
  pose proof (np_max_ge v) as Hmax. rewrite Forall_forall in Hmax.
  split; apply Qle_antisym.
  - destruct (In_nth (np_sort v) (np_min v) 0) as (i & Hi & <-);
      [apply np_sort_In, np_min_In, Hne |].
    apply nth_le_sorted; [exact Hs | lia | exact Hi].
  - apply Hmin, np_sort_In, nth_In. exact Hn.
  - apply Hmax, np_sort_In, nth_In. lia.
  - destruct (In_nth (np_sort v) (np_max v) 0) as (i & Hi & <-);
      [apply np_sort_In, np_max_In, Hne |].
    apply nth_le_sorted; [exact Hs | lia | lia].
Qed.

(** The least cut point is the least value and the greatest cut point the
    greatest value. *)
Lemma quantile_cuts_ends (v : list Q) (k : nat) :
  v <> [] -> (1 <= k)%nat ->
  let cuts := np_unique (np_quantile v (np_linspace 0 1 (k + 1))) in
  hd 0 cuts == np_min v /\ last cuts 0 == np_max v.
Proof.
  intros Hne Hk cuts.
  set (sv := np_sort v). set (qs := np_linspace 0 1 (k + 1)).
  assert (Hsv : sv <> []).
  { intros E. apply (f_equal (@length Q)) in E. unfold sv in E.
    rewrite np_sort_length in E. destruct v; [congruence | discriminate]. }
  destruct (np_sort_ends v Hne) as [Emin Emax]. fold sv in Emin, Emax.
  pose proof (np_unique_increasing (np_quantile v qs)) as Hinc.
  fold cuts in Hinc. unfold strictly_increasing in Hinc.
  (* every cut point is a quantile, hence inside the range *)
  assert (Hrange : forall c, In c cuts ->
                             nth 0 sv 0 <= c /\ c <= nth (length sv - 1) sv 0).
  { intros c Hc. apply np_unique_In in Hc. unfold np_quantile in Hc.
    apply in_map_iff in Hc. destruct Hc as (q & <- & Hq).
    pose proof (linspace_unit_ge k) as H0. pose proof (linspace_unit_le k) as H1.
    rewrite Forall_forall in H0, H1.
    apply quantile_sorted_range;
      [apply np_sort_StronglySorted | exact Hsv | now apply H0 | now apply H1]. }
  (* the two ends of the range are cut points *)
  destruct (linspace_unit_ends k Hk) as [(q0 & Hq0 & E0) (q1 & Hq1 & E1)].
  assert (Hlo : InA Qeq (nth 0 sv 0) cuts).
  { rewrite <- (quantile_sorted_zero sv q0 E0).
    apply np_unique_InA. unfold np_quantile. now apply in_map. }
  assert (Hhi : InA Qeq (nth (length sv - 1) sv 0) cuts).
  { rewrite <- (quantile_sorted_one sv q1 E1).
    apply np_unique_InA. unfold np_quantile. now apply in_map. }
  apply InA_alt in Hlo. destruct Hlo as (lo & Elo & Hlo).
  apply InA_alt in Hhi. destruct Hhi as (hi & Ehi & Hhi).
  assert (Hne' : cuts <> []) by (intros E; rewrite E in Hlo; destruct Hlo).
  assert (Hhd : In (hd 0 cuts) cuts)
    by (destruct cuts; [congruence | now left]).
  assert (Hla : In (last cuts 0) cuts).
  { destruct (exists_last Hne') as (l' & a & E). rewrite E, last_last.
    apply in_or_app. right. now left. }
  split.
  - rewrite <- Emin. apply Qle_antisym.
    + rewrite Elo. now apply (increasing_hd_last cuts lo Hinc).
    + now apply Hrange.
  - rewrite <- Emax. apply Qle_antisym.
    + now apply Hrange.
    + rewrite Ehi. now apply (increasing_hd_last cuts hi Hinc).
Qed.

(** ** The classifier: what every result has *)





(** X12: when the present values are not all equal and k >= 1, the first
    boundary is the least value and the last boundary is the greatest
    value, under either label. *)
Theorem make_bins_ends (values : list (option Q)) (mode : str) (k : nat) :
  dropna values <> [] -> (1 <= k)%nat ->
  ~ np_min (dropna values) == np_max (dropna values) ->
  exists bins label,
    make_bins values mode k = (Some bins, Some label) /\
    hd 0 bins == np_min (dropna values) /\
    last bins 0 == np_max (dropna values).
Proof.
  intros Hne Hk Hneq. unfold make_bins.
  assert (El : (length (dropna values) =? 0)%nat = false).
  { apply Nat.eqb_neq. destruct (dropna values); [congruence | discriminate]. }
  rewrite El.
  assert (Eq : Qeq_bool (np_min (dropna values)) (np_max (dropna values))
               = false).
  { destruct (Qeq_bool _ _) eqn:E; [| reflexivity].
    apply Qeq_bool_iff in E. contradiction. }
  rewrite Eq.
  assert (Hlt : np_min (dropna values) < np_max (dropna values)).
  { pose proof (np_min_le_max _ Hne) as Hle.
    apply Qle_lt_or_eq in Hle. destruct Hle as [H | H]; tauto. }
  destruct (np_linspace_increasing _ _ k Hk Hlt) as (_ & _ & Hhd & Hla).
  destruct (str_eqb mode (lit "quantile")); [| eauto].
  destruct (3 <=? length _)%nat; [| eauto].
  eexists _, _. split; [reflexivity |].
  exact (quantile_cuts_ends (dropna values) k Hne Hk).
Qed.

Lemma make_bins_ends_witness :
  exists bins label,
    make_bins [Some 7; None; Some 3; Some 5] COLOR_MODE N_QUANTILES =
      (Some bins, Some label) /\
    hd 0 bins == 3 /\ last bins 0 == 7.
Proof.
  destruct (make_bins_ends [Some 7; None; Some 3; Some 5]
              COLOR_MODE N_QUANTILES)
    as (bins & label & E & Hhd & Hla).
  - discriminate.
  - unfold N_QUANTILES. lia.
  - intros H. discriminate H.
  - exists bins, label. split; [exact E | split; [exact Hhd | exact Hla]].
Defined.

(** ** The colour ramp *)

Lemma value_range_bounds (vals : list Q) (v : Q) :
  In v vals ->
  value_range vals = (np_min vals, np_max vals) /\
  np_min vals <= v /\ v <= np_max vals.
Proof.
  intros Hv. pose proof (np_min_le vals) as Hmin.
  pose proof (np_max_ge vals) as Hmax. rewrite Forall_forall in Hmin, Hmax.
  split; [| split; [now apply Hmin | now apply Hmax]].
  unfold value_range. destruct vals; [destruct Hv | reflexivity].
Qed.

Lemma ramp_position_between (vmin vmax v : Q) :
  vmin <= v -> v <= vmax ->
  exists t, ramp_position vmin vmax v = Ok t /\ 0 <= t /\ t <= 1.
Proof.
  intros Hlo Hhi. unfold ramp_position, truediv.
  destruct (Qeq_bool vmin vmax) eqn:E.
  - exists (1 # 2). repeat split; discriminate.
  - assert (Hd : 0 < vmax - vmin).
    { assert (Hle : vmin <= vmax) by now apply Qle_trans with v.
      apply Qle_lt_or_eq in Hle. destruct Hle as [H | H]; [lra |].
      apply Qeq_bool_iff in H. congruence. }
    destruct (Qeq_bool (vmax - vmin) 0) eqn:E0.
    { apply Qeq_bool_iff in E0. lra. }
    eexists. split; [reflexivity |]. split.
    + apply Qle_shift_div_l; [exact Hd | lra].
    + apply Qle_shift_div_r; [exact Hd | lra].
Qed.

(** X13: for every present value of the data the position on the colour
    ramp is computed and lies in [0, 1]; when the values are not all equal
    the least value is drawn at 0 and the greatest at 1. *)
Theorem ramp_position_unit (vals : list Q) (v : Q) :
  In v vals ->
  let vmin := fst (value_range vals) in
  let vmax := snd (value_range vals) in
  (exists t, ramp_position vmin vmax v = Ok t /\ 0 <= t /\ t <= 1) /\
  (~ vmin == vmax ->
   exists t0 t1,
     ramp_position vmin vmax vmin = Ok t0 /\ t0 == 0 /\
     ramp_position vmin vmax vmax = Ok t1 /\ t1 == 1).
Proof.
  intros Hv. destruct (value_range_bounds vals v Hv) as (E & Hlo & Hhi).
  rewrite E. simpl. split; [now apply ramp_position_between |].
  intros Hne. unfold ramp_position, truediv.
  destruct (Qeq_bool (np_min vals) (np_max vals)) eqn:Eq;
    [apply Qeq_bool_iff in Eq; contradiction |].
  destruct (Qeq_bool (np_max vals - np_min vals) 0) eqn:E0.
  { apply Qeq_bool_iff in E0. exfalso. apply Hne. lra. }
  apply Qeq_bool_neq in E0.
  eexists _, _. split; [reflexivity |]. split; [field; exact E0 |].
  split; [reflexivity | field; exact E0].
Qed.

Lemma ramp_position_unit_witness :
  exists t, ramp_position 3 11 5 = Ok t /\ 0 <= t /\ t <= 1.
Proof.
  exact (proj1 (ramp_position_unit [5; 3; 11] 5 (or_introl eq_refl))).
Defined.

(** X14: the colour ramp preserves the order of the values: of two values
    the greater is never drawn at a smaller position (the range being
    given least end first, as [main] gives it). *)
Theorem ramp_position_monotone (vmin vmax v1 v2 t1 t2 : Q) :
  vmin <= vmax -> v1 <= v2 ->
  ramp_position vmin vmax v1 = Ok t1 ->
  ramp_position vmin vmax v2 = Ok t2 ->
  t1 <= t2.
Proof.
  intros Hle Hv. unfold ramp_position, truediv.
  destruct (Qeq_bool vmin vmax) eqn:E.
  - intros [= <-] [= <-]. apply Qle_refl.
  - assert (Hd : 0 < vmax - vmin).
    { apply Qle_lt_or_eq in Hle. destruct Hle as [H | H]; [lra |].
      apply Qeq_bool_iff in H. congruence. }
    destruct (Qeq_bool (vmax - vmin) 0); [discriminate |].
    intros [= <-] [= <-]. unfold Qdiv.
    apply Qmult_le_compat_r; [lra |].
    apply Qlt_le_weak, Qinv_lt_0_compat, Hd.
Qed.

Lemma ramp_position_monotone_witness :
  (5 - 3) / (11 - 3) <= (10 - 3) / (11 - 3).
Proof.
  apply (ramp_position_monotone 3 11 5 10 ((5 - 3) / (11 - 3))
           ((10 - 3) / (11 - 3)));
    try reflexivity; discriminate.
Defined.

(** ** The run as a whole *)

Lemma map_result_Forall2 (A B : Type) (f : A -> result B) (l : list A)
    (bs : list B) :
  map_result f l = Ok bs -> Forall2 (fun a b => f a = Ok b) l bs.
Proof.
  revert bs. induction l as [| a l IH]; simpl; intros bs.
  - intros [= <-]. constructor.
  - destruct (f a) as [b | e] eqn:Ea; simpl; [| discriminate].
    destruct (map_result f l) as [bs' | e]; simpl; [| discriminate].
    intros [= <-]. constructor; [exact Ea | now apply IH].
Qed.

Lemma Forall2_map_left (A B C : Type) (g : A -> B) (R : B -> C -> Prop)
    (l : list A) (l' : list C) :
  Forall2 R (map g l) l' -> Forall2 (fun a c => R (g a) c) l l'.
Proof.
  revert l'. induction l as [| a l IH]; intros l' H; inversion H; subst;
    constructor; auto.
Qed.

Lemma dropna_In (v : Q) (l : list (option Q)) :
  In (Some v) l -> In v (dropna l).
Proof.
  induction l as [| [x |] l IH]; simpl; [tauto | |].
  - intros [[= ->] | H]; [now left | right; now apply IH].
  - intros [H | H]; [discriminate | now apply IH].
Qed.

(** What [main] returns, read off its definition. *)
Lemma main_inversion (to_numeric : str -> option Q) (viridis_hex : Q -> str)
    (G : Type) (csv : DataFrame) (geo : GeoDataFrame G) (out : Output G) :
  main to_numeric viridis_hex G csv geo = Ok out ->
  exists wc gdf,
    load_wordcounts to_numeric csv = Ok wc /\
    load_geo geo COUNTY_NAME_FIELD = Ok gdf /\
    out_merged out = merge_left gdf (map (fun r => (key r, value r)) wc) /\
    map_result
      (color_for viridis_hex
         (fst (value_range (dropna (map m_value (out_merged out)))))
         (snd (value_range (dropna (map m_value (out_merged out))))))
      (map m_value (out_merged out)) = Ok (out_fill out).
Proof.
  unfold main.
  destruct (load_wordcounts to_numeric csv) as [wc | e]; [| discriminate].
  destruct (load_geo geo COUNTY_NAME_FIELD) as [gdf | e]; [| discriminate].
  simpl.
  set (merged := merge_left gdf (map (fun r => (key r, value r)) wc)).
  destruct (make_bins (map m_value merged) COLOR_MODE N_QUANTILES)
    as [bins label].
  destruct (value_range (dropna (map m_value merged))) as [vmin vmax] eqn:Er.
  destruct (map_result (color_for viridis_hex vmin vmax) (map m_value merged))
    as [fill | e] eqn:Ef; simpl; [| discriminate].
  intros [= <-]. exists wc, gdf. simpl. fold merged. rewrite Er. simpl.
  now repeat split.
Qed.

(** X15: in the interactive map every region without a value is filled
    with the neutral colour "#f0f0f0", and every region with a value is
    filled with the colour of the ramp at a position within [0, 1]; there
    is one fill colour per joined row. *)
Theorem main_fill_colours (to_numeric : str -> option Q)
    (viridis_hex : Q -> str) (G : Type) (csv : DataFrame)
    (geo : GeoDataFrame G) (out : Output G) :
  main to_numeric viridis_hex G csv geo = Ok out ->
  Forall2 (fun m c =>
             match m_value m with
             | None => c = lit "#f0f0f0"
             | Some v => exists t, 0 <= t /\ t <= 1 /\ c = viridis_hex t
             end)
          (out_merged out) (out_fill out).
Proof.
  intros H. destruct (main_inversion _ _ _ _ _ _ H) as (wc & gdf & _ & _ & _ & Hf).
  apply map_result_Forall2, Forall2_map_left in Hf.
  set (vals := dropna (map m_value (out_merged out))) in *.
  assert (Hin : forall m v, In m (out_merged out) -> m_value m = Some v ->
                            In v vals).
  { intros m v Hm Hv. apply dropna_In. rewrite <- Hv. now apply in_map. }
  revert Hin Hf. generalize (out_fill out). generalize vals.
  induction (out_merged out) as [| m ms IH]; intros vs fill Hin Hf;
    inversion Hf as [| ? c ? fill' Hc Hrest]; subst; constructor.
  - destruct (m_value m) as [v |] eqn:Ev.
    + assert (Hv : In v vs) by (apply (Hin m); [now left | exact Ev]).
      destruct (value_range_bounds vs v Hv) as (E & Hlo & Hhi).
      rewrite E in Hc. simpl in Hc.
      destruct (ramp_position_between _ _ v Hlo Hhi) as (t & Et & H0 & H1).
      rewrite Et in Hc. simpl in Hc. injection Hc as <-.
      now exists t.
    + simpl in Hc. now injection Hc as <-.
  - apply (IH vs); [| exact Hrest].
    intros m' v Hm' Hv. apply (Hin m'); [now right | exact Hv].
Qed.

Lemma main_fill_colours_witness :
  exists out,
    main digits_to_numeric grey_ramp unit sample_csv sample_geo = Ok out /\
    Forall2 (fun m c =>
               match m_value m with
               | None => c = lit "#f0f0f0"
               | Some v => exists t, 0 <= t /\ t <= 1 /\ c = grey_ramp t
               end)
            (out_merged out) (out_fill out).
Proof.
  destruct (main digits_to_numeric grey_ramp unit sample_csv sample_geo)
    as [out | e] eqn:E.
  - exists out. split; [reflexivity |].
    exact (main_fill_colours digits_to_numeric grey_ramp unit sample_csv
             sample_geo out E).
  - vm_compute in E. discriminate E.
Defined.

Lemma load_wordcounts_returns (to_numeric : str -> option Q)
    (df : DataFrame) :
  (exists wc, load_wordcounts to_numeric df = Ok wc) <->
  has_column (columns df) (lit "county") = true /\
  (has_column (columns df) (lit "prosewords") = true \/
   has_column (columns df) (lit "words") = true).
Proof.
  split.
  - intros (wc & E).
    destruct (has_column (columns df) (lit "county")) eqn:Hc.
    + split; [reflexivity |].
      destruct (has_column (columns df) (lit "prosewords")) eqn:Hp;
        [now left |].
      destruct (has_column (columns df) (lit "words")) eqn:Hw; [now right |].
      rewrite (load_wordcounts_raises to_numeric df) in E by auto.
      discriminate.
    + rewrite (load_wordcounts_raises to_numeric df) in E by auto.
      discriminate.
  - intros [Hc Hw].
    destruct (county_col_has df Hc) as (cc & Ecc & Hcin & _).
    assert (Hsel : exists wc, words_col df = Some wc /\ In wc (columns df)).
    { destruct (has_column (columns df) (lit "prosewords")) eqn:Hp.
      - destruct (words_col_prose df Hp) as (wc & E & Hin & _). eauto.
      - destruct Hw as [Hw | Hw]; [discriminate |].
        destruct (words_col_words df Hp Hw) as (wc & E & Hin & _). eauto. }
    destruct Hsel as (wc & Ewc & Hwin).
    destruct (load_wordcounts_selected to_numeric df cc wc Ecc Hcin Ewc Hwin)
      as (i & j & _ & _ & E).
    eauto.
Qed.




(** X17: end to end, a region gets the value of every table row whose
    county name normalises to the key of the region's name, however the two
    are spelled: for such a row and feature the output has a joined row
    with the feature's name and geometry and the row's coerced value (absent
    when the cell is no number). *)
Theorem main_joins_by_key (to_numeric : str -> option Q)
    (viridis_hex : Q -> str) (G : Type) (csv : DataFrame)
    (geo : GeoDataFrame G) (out : Output G) :
  main to_numeric viridis_hex G csv geo = Ok out ->
  exists i j n cc wc,
    nth_error (columns csv) i = Some cc /\ lower cc = lit "county" /\
    nth_error (columns csv) j = Some wc /\
    (lower wc = lit "prosewords" \/ lower wc = lit "words") /\
    nth_error (gcolumns geo) n = Some (lit "NAME_1") /\
    forall r f,
      In r (rows csv) -> In f (features geo) ->
      norm_county_name (Some (str_of_cell (nth i r None))) =
        norm_county_name (Some (nth n (fst f) [])) ->
      exists m,
        In m (out_merged out) /\
        m_geo_name m = nth n (fst f) [] /\
        m_geometry m = snd f /\
        m_value m = to_numeric_cell to_numeric (nth j r None).
Proof.
  intros H.
  destruct (main_inversion _ _ _ _ _ _ H) as (wcs & gdf & Hwc & Hgdf & Hm & _).
  destruct (proj1 (load_wordcounts_returns to_numeric csv)) as [Hc Hw];
    [eauto |].
  destruct (county_col_has csv Hc) as (cc & Ecc & Hcin & Hcl).
  assert (Hsel : exists wc, words_col csv = Some wc /\ In wc (columns csv) /\
                   (lower wc = lit "prosewords" \/ lower wc = lit "words")).
  { destruct (has_column (columns csv) (lit "prosewords")) eqn:Hp.
    - destruct (words_col_prose csv Hp) as (wc & E & Hin & Hl). eauto.
    - destruct Hw as [Hw | Hw]; [discriminate |].
      destruct (words_col_words csv Hp Hw) as (wc & E & Hin & Hl). eauto. }
  destruct Hsel as (wc & Ewc & Hwin & Hwl).
  destruct (load_wordcounts_selected to_numeric csv cc wc Ecc Hcin Ewc Hwin)
    as (i & j & Hi & Hj & E).
  rewrite E in Hwc. injection Hwc as <-.
  unfold load_geo in Hgdf.
  destruct (index_of COUNTY_NAME_FIELD (gcolumns geo)) as [n |] eqn:En;
    [| discriminate].
  injection Hgdf as <-.
  assert (Hn : nth_error (gcolumns geo) n = Some (lit "NAME_1")).
  { destruct (index_of_In _ _ (index_of_Some _ _ _ En)) as (n' & En' & Hn').
    rewrite En in En'. injection En' as <-. exact Hn'. }
  exists i, j, n, cc, wc.
  split; [exact Hi |]. split; [exact Hcl |]. split; [exact Hj |].
  split; [exact Hwl |]. split; [exact Hn |].
  intros r f Hr Hf Hk.
  eexists. split.
  - rewrite Hm. apply merge_left_In.
    eexists. split; [apply in_map, Hf |]. left.
    exists (key (word_row to_numeric i j r), value (word_row to_numeric i j r)).
    split; [| split; [exact Hk | reflexivity]].
    rewrite map_map. apply (in_map (fun x => (key (word_row to_numeric i j x),
                                              value (word_row to_numeric i j x)))).
    exact Hr.
  - repeat split.
Qed.

Lemma main_joins_by_key_witness :
  exists out,
    main digits_to_numeric grey_ramp unit sample_csv sample_geo = Ok out /\
    exists m,
      In m (out_merged out) /\ m_geo_name m = lit "Offaly" /\
      m_value m = Some 500.
Proof.
  destruct (main digits_to_numeric grey_ramp unit sample_csv sample_geo)
    as [out | e] eqn:E; [| vm_compute in E; discriminate E].
  exists out. split; [reflexivity |].
  destruct (main_joins_by_key digits_to_numeric grey_ramp unit sample_csv
              sample_geo out E)
    as (i & j & n & cc & wc & Hi & Hcl & Hj & Hwl & Hn & Hjoin).
  assert (Ei : i = 0%nat).
  { destruct i as [| [| [| [| i]]]]; try reflexivity;
      simpl in Hi; try (injection Hi as <-; discriminate Hcl).
    destruct i; discriminate Hi. }
  assert (Ej : j = 1%nat).
  { destruct j as [| [| [| [| j]]]]; try reflexivity;
      simpl in Hj;
      try (injection Hj as <-; destruct Hwl as [Hwl | Hwl]; discriminate Hwl).
    destruct j; discriminate Hj. }
  assert (En : n = 1%nat).
  { destruct n as [| [| n]]; try reflexivity; simpl in Hn;
      [discriminate Hn | destruct n; discriminate Hn]. }
  subst i j n.
  destruct (Hjoin [Some (lit "County Offaly"); Some (lit "500");
                   Some (lit "County Offaly"); None]
              ([lit "IRL.20_1"; lit "Offaly"], tt))
    as (m & Hm & Hname & _ & Hv).
  - left. reflexivity.
  - right. left. reflexivity.
  - reflexivity.
  - exists m. split; [exact Hm | split; [exact Hname | exact Hv]].
Defined.

(** ** More on the value loader and the report *)






Lemma main_report_inversion (to_numeric : str -> option Q)
    (viridis_hex : Q -> str) (G : Type) (csv : DataFrame)
    (geo : GeoDataFrame G) (out : Output G) :
  main to_numeric viridis_hex G csv geo = Ok out ->
  out_report out =
    match missing_values (out_merged out) with
    | [] => None
    | _ :: _ => Some (mismatch_report (out_merged out))
    end.
Proof.
  unfold main.
  destruct (load_wordcounts to_numeric csv) as [wc | e]; [| discriminate].
  destruct (load_geo geo COUNTY_NAME_FIELD) as [gdf | e]; [| discriminate].
  simpl.
  set (merged := merge_left gdf (map (fun r => (key r, value r)) wc)).
  destruct (make_bins (map m_value merged) COLOR_MODE N_QUANTILES)
    as [bins label].
  destruct (value_range (dropna (map m_value merged))) as [vmin vmax].
  destruct (map_result (color_for viridis_hex vmin vmax) (map m_value merged))
    as [fill | e]; simpl; [| discriminate].
  intros [= <-]. reflexivity.
Qed.

Lemma missing_values_nil_iff (G : Type) (merged : list (MergedRow G)) :
  missing_values merged = [] <-> Forall (fun m => m_value m <> None) merged.
Proof.
  unfold missing_values. induction merged as [| m ms IH]; simpl.
  - split; [constructor | reflexivity].
  - destruct (m_value m) as [v |] eqn:Ev; simpl.
    + rewrite IH. split.
      * intros Hall. constructor; [congruence | exact Hall].
      * intros Hall. now inversion Hall.
    + split; [discriminate |]. intros Hall. inversion Hall. congruence.
Qed.

(** X19: a run prints a mismatch report exactly when some joined row has
    no value; when every region has a value nothing is reported. *)
Theorem main_report_none_iff (to_numeric : str -> option Q)
    (viridis_hex : Q -> str) (G : Type) (csv : DataFrame)
    (geo : GeoDataFrame G) (out : Output G) :
  main to_numeric viridis_hex G csv geo = Ok out ->
  (out_report out = None <->
   Forall (fun m => m_value m <> None) (out_merged out)).
Proof.
  intros H. rewrite (main_report_inversion _ _ _ _ _ _ H).
  rewrite <- (missing_values_nil_iff G (out_merged out)).
  destruct (missing_values (out_merged out)); split; congruence.
Qed.

Lemma main_report_none_iff_witness :
  exists out,
    main digits_to_numeric grey_ramp unit sample_csv sample_geo = Ok out /\
    (out_report out = None <->
     Forall (fun m => m_value m <> None) (out_merged out)).
Proof.
  destruct (main digits_to_numeric grey_ramp unit sample_csv sample_geo)
    as [out | e] eqn:E; [| vm_compute in E; discriminate E].
  exists out. split; [reflexivity |].
  exact (main_report_none_iff digits_to_numeric grey_ramp unit sample_csv
           sample_geo out E).
Defined.

(** ** The producer's word count *)


(** The loop computes the sum of the usable counts, and has found one
    exactly when there is one. *)
Lemma fold_add_section (secs : list json) (total : Z) (found : bool) :
  fold_left add_section secs (total, found) =
    ((total + fold_right Z.add 0 (section_words secs))%Z,
     found || negb (Nat.eqb (length (section_words secs)) 0)).
Proof.
  revert total found.
  induction secs as [| sec secs IH]; intros total found; simpl.
  - now rewrite Z.add_0_r, orb_false_r.
  - unfold section_words in *. simpl.
    destruct sec as [| b | z | q | s | l | sd]; simpl;
      try (rewrite IH; reflexivity).
    destruct (int_at sd (lit "words")) as [w |]; simpl.
    + rewrite IH. simpl. rewrite orb_true_r. f_equal. lia.
    + rewrite IH. reflexivity.
Qed.



(** X21: when neither the top level nor "prose" gives an integer count and
    "section_statistics" is a list, the result is the sum of the integer
    counts of the sections that are objects, sections of any other kind or
    without an integer count being skipped; it is [None] exactly when no
    section has an integer count, so sections that all count 0 words give
    0, not [None]. *)
Theorem extract_prose_words_sections (d : list (str * json))
    (secs : list json) :
  int_at d (lit "words") = None ->
  match dict_find d (lit "prose") with
  | Some (JDict prose) => int_at prose (lit "words") = None
  | _ => True
  end ->
  dict_find d (lit "section_statistics") = Some (JList secs) ->
  extract_prose_words (JDict d) =
    match section_words secs with
    | [] => None
    | ws => Some (JInt (fold_right Z.add 0%Z ws))
    end.
Proof.
  intros E1 Ep Es. unfold extract_prose_words. rewrite E1, Es.
  assert (En : match dict_find d (lit "prose") with
               | Some (JDict prose) => int_at prose (lit "words")
               | _ => None
               end = None).
  { destruct (dict_find d (lit "prose")) as [[| | | | | | prose] |];
      try reflexivity. exact Ep. }
  rewrite En. rewrite fold_add_section. simpl.
  destruct (section_words secs); reflexivity.
Qed.

Lemma extract_prose_words_sections_witness :
  extract_prose_words (JDict sections_items) = Some (JInt 120).
Proof.
  exact (extract_prose_words_sections sections_items sample_sections
           eq_refl I eq_refl).
Defined.

(** ** Boundaries and label of a run *)

Lemma make_bins_none_iff (values : list (option Q)) (mode : str) (k : nat) :
  (fst (make_bins values mode k) = None <-> dropna values = []) /\
  (snd (make_bins values mode k) = None <-> dropna values = []).
Proof.
  unfold make_bins.
  destruct (dropna values) as [| x v] eqn:E; simpl length; cbv iota.
  - simpl. split; split; reflexivity.
  - change (S (length v) =? 0)%nat with false. cbv iota.
    destruct (str_eqb mode (lit "quantile"));
      [destruct (3 <=? length _)%nat |];
      simpl; split; split; discriminate.
Qed.

Lemma dropna_nil_iff (l : list (option Q)) :
  dropna l = [] <-> Forall (fun v => v = None) l.
Proof.
  induction l as [| [x |] l IH]; simpl.
  - split; [constructor | reflexivity].
  - split; [discriminate | intros H; inversion H; discriminate].
  - rewrite IH. split; [now constructor | intros H; now inversion H].
Qed.

Lemma main_bins_inversion (to_numeric : str -> option Q)
    (viridis_hex : Q -> str) (G : Type) (csv : DataFrame)
    (geo : GeoDataFrame G) (out : Output G) :
  main to_numeric viridis_hex G csv geo = Ok out ->
  (out_bins out, out_scale_label out) =
    make_bins (map m_value (out_merged out)) COLOR_MODE N_QUANTILES.
Proof.
  unfold main.
  destruct (load_wordcounts to_numeric csv) as [wc | e]; [| discriminate].
  destruct (load_geo geo COUNTY_NAME_FIELD) as [gdf | e]; [| discriminate].
  simpl.
  set (merged := merge_left gdf (map (fun r => (key r, value r)) wc)).
  destruct (make_bins (map m_value merged) COLOR_MODE N_QUANTILES)
    as [bins label] eqn:Eb.
  destruct (value_range (dropna (map m_value merged))) as [vmin vmax].
  destruct (map_result (color_for viridis_hex vmin vmax) (map m_value merged))
    as [fill | e]; simpl; [| discriminate].
  intros [= <-]. simpl. now rewrite Eb.
Qed.

(** X22: a run has no boundaries, and no scale label for the title,
    exactly when no joined row has a value (nothing matched, or no matched
    cell was a number); as soon as one region has a value it has both. *)
Theorem main_bins_none_iff (to_numeric : str -> option Q)
    (viridis_hex : Q -> str) (G : Type) (csv : DataFrame)
    (geo : GeoDataFrame G) (out : Output G) :
  main to_numeric viridis_hex G csv geo = Ok out ->
  (out_bins out = None <->
   Forall (fun m => m_value m = None) (out_merged out)) /\
  (out_scale_label out = None <-> out_bins out = None).
Proof.
  intros H. pose proof (main_bins_inversion _ _ _ _ _ _ H) as E.
  destruct (make_bins_none_iff (map m_value (out_merged out)) COLOR_MODE
              N_QUANTILES) as [Hb Hl].
  rewrite <- E in Hb, Hl. simpl in Hb, Hl.
  assert (Hall : dropna (map m_value (out_merged out)) = [] <->
                 Forall (fun m => m_value m = None) (out_merged out)).
  { rewrite dropna_nil_iff. split; intros Hf.
    - apply Forall_forall. intros m Hm. rewrite Forall_forall in Hf.
      apply Hf. now apply in_map.
    - now apply Forall_map. }
  split; [now rewrite Hb | now rewrite Hl, Hb].
Qed.

Lemma main_bins_none_iff_witness :
  exists out,
    main digits_to_numeric grey_ramp unit no_values_csv sample_geo = Ok out /\
    out_bins out = None /\ out_scale_label out = None.
Proof.
  destruct (main digits_to_numeric grey_ramp unit no_values_csv sample_geo)
    as [out | e] eqn:E; [| vm_compute in E; discriminate E].
  exists out. split; [reflexivity |].
  destruct (main_bins_none_iff digits_to_numeric grey_ramp unit no_values_csv
              sample_geo out E) as [Hb Hl].
  assert (Hnone : out_bins out = None).
  { apply Hb. vm_compute in E. injection E as <-. repeat constructor. }
  split; [exact Hnone | now apply Hl].
Defined.
